(** * c-state-machine: the dispatch engine of [src/state-machine.c]

    A shallow embedding of the engine ([state_machine_init_table],
    [state_machine_init_function], [state_machine_current_state],
    [state_machine_event] and the two lock wrappers) together with the
    properties of its dispatch protocol.

    Modelling conventions.
    - [uint32_t] values are naturals of [N]; the engine does no arithmetic on
      them besides comparisons and the test [flags & STATE_MACHINE_NONBLOCK].
    - Object pointers ([void *], [State_machine_transition *]) and function
      pointers are addresses in [N], [NULL] being [0].  Addresses of
      [State_machine_transition] objects count in units of one such object,
      so that [&table[s][e]] is [table + (s * max_event + e)].
    - The flag-plus-union pairs of the header ([is_transition]/[result] and
      [using_table]/[implementation]) are tagged variants; the flag is
      recovered from the constructor.
    - Everything the embedder supplies (lock primitives, transition function,
      cleanup, callbacks, the memory holding transition records) lives in an
      embedder world [W] and is reached through the interface [Embedder].
      The lock primitives, which receive [sm] in C, see its current value.
      In [state_machine_event] the callbacks and the cleanup function act on
      [W] alone; [Chained.state_machine_event] is the same dispatch with
      callbacks and cleanup functions that use the interface again, as the
      code allows once the lock is given (lines 294-350).
    - [sm] and the cell [state] are valid: the machine and the cell are
      values, so the [ASSERT_NOT_NULL] of lines 84, 178, 179 and 201 hold by
      construction.
    - [assert] aborts the program: a failed assertion is the outcome
      [Fault (assertion_failed line)], [line] being the line of the [assert]
      in [state-machine.c].  Reading through a pointer that is indeterminate
      or does not address a transition record is [Fault invalid_read].
    - Every call into embedder code is recorded, in order, in [calls]. *)

From stdpp Require Import base numbers list relations strings.

Local Open Scope N_scope.

(** ** Data model ([state-machine.h]) *)

Definition uint32 := N.
Definition pointer := N.
Definition funptr := N.
Definition NULL : N := 0.

Definition STATE_MACHINE_NONBLOCK : uint32 := 2048.
Definition STATE_MACHINE_SUCCESS : uint32 := 0.
Definition STATE_MACHINE_WOULD_BLOCK : uint32 := 1.

Definition is_sm_success (r : uint32) : bool := r =? STATE_MACHINE_SUCCESS.
Definition is_sm_failure (r : uint32) : bool := negb (r =? STATE_MACHINE_SUCCESS).

(** The union [result] of [State_machine_transition] with its discriminant. *)
Inductive State_machine_transition_result :=
| RESULT_TRANSITION (next_state : uint32) (on_enter : funptr)
| RESULT_NO_TRANSITION (on_undefined_transition : funptr).

Record State_machine_transition := {
  cause : uint32;
  current_state : uint32;
  result : State_machine_transition_result
}.

Definition IS_TRANSITION (t : State_machine_transition) : bool :=
  match result t with
  | RESULT_TRANSITION _ _ => true
  | RESULT_NO_TRANSITION _ => false
  end.

Definition STATE_MACHINE_TRANSITION (s e ns : uint32) (h : funptr) :=
  {| cause := e; current_state := s; result := RESULT_TRANSITION ns h |}.

Definition STATE_MACHINE_NO_TRANSITION (s e : uint32) (h : funptr) :=
  {| cause := e; current_state := s; result := RESULT_NO_TRANSITION h |}.

Record State_machine_locking := {
  try_take : funptr;
  take : funptr;
  give : funptr
}.

Definition STATE_MACHINE_NO_LOCKING : State_machine_locking :=
  {| try_take := NULL; take := NULL; give := NULL |}.

(** The union [implementation] of [State_machine] with its discriminant
    [using_table]. *)
Inductive State_machine_implementation :=
| table (transition_table : pointer)
| function (transition cleanup : funptr).

(** The fields are named after the accessor macros of [state-machine.c]. *)
Record State_machine := {
  SM_MAX_STATE : uint32;
  SM_MAX_EVENT : uint32;
  SM_CURRENT_STATE : uint32;
  SM_LOCK : State_machine_locking;
  SM_TRANSITION : State_machine_implementation;
  SM_DATA : pointer
}.

Definition SM_USING_TRANSITION_TABLE (sm : State_machine) : bool :=
  match SM_TRANSITION sm with
  | table _ => true
  | function _ _ => false
  end.

Definition USE_LOCKING (sm : State_machine) : bool :=
  negb (take (SM_LOCK sm) =? NULL).

(** The condition asserted by [ASSERT_LOCKING_DEFINITION_CONSISTENCY]. *)
Definition locking_definition_consistent (lock : State_machine_locking) : bool :=
  ((take lock =? NULL) && (try_take lock =? NULL) && (give lock =? NULL))
  || (negb (take lock =? NULL) && negb (try_take lock =? NULL)
      && negb (give lock =? NULL)).

Definition locking_enabled (lock : State_machine_locking) : Prop :=
  take lock ≠ NULL ∧ try_take lock ≠ NULL ∧ give lock ≠ NULL.

Definition locking_absent (lock : State_machine_locking) : Prop :=
  take lock = NULL ∧ try_take lock = NULL ∧ give lock = NULL.

(** A partial configuration: some but not all of the three are present. *)
Definition locking_partial (lock : State_machine_locking) : Prop :=
  (take lock ≠ NULL ∨ try_take lock ≠ NULL ∨ give lock ≠ NULL)
  ∧ (take lock = NULL ∨ try_take lock = NULL ∨ give lock = NULL).

(** [memset(sm, 0, sizeof(State_machine))]. *)
Definition zeroed_machine : State_machine :=
  {| SM_MAX_STATE := 0; SM_MAX_EVENT := 0; SM_CURRENT_STATE := 0;
     SM_LOCK := STATE_MACHINE_NO_LOCKING;
     SM_TRANSITION := function NULL NULL;
     SM_DATA := NULL |}.

Definition set_max_state (v : uint32) (sm : State_machine) : State_machine :=
  {| SM_MAX_STATE := v; SM_MAX_EVENT := SM_MAX_EVENT sm;
     SM_CURRENT_STATE := SM_CURRENT_STATE sm; SM_LOCK := SM_LOCK sm;
     SM_TRANSITION := SM_TRANSITION sm; SM_DATA := SM_DATA sm |}.

Definition set_max_event (v : uint32) (sm : State_machine) : State_machine :=
  {| SM_MAX_STATE := SM_MAX_STATE sm; SM_MAX_EVENT := v;
     SM_CURRENT_STATE := SM_CURRENT_STATE sm; SM_LOCK := SM_LOCK sm;
     SM_TRANSITION := SM_TRANSITION sm; SM_DATA := SM_DATA sm |}.

Definition set_current_state (v : uint32) (sm : State_machine) : State_machine :=
  {| SM_MAX_STATE := SM_MAX_STATE sm; SM_MAX_EVENT := SM_MAX_EVENT sm;
     SM_CURRENT_STATE := v; SM_LOCK := SM_LOCK sm;
     SM_TRANSITION := SM_TRANSITION sm; SM_DATA := SM_DATA sm |}.

Definition set_lock (v : State_machine_locking) (sm : State_machine) : State_machine :=
  {| SM_MAX_STATE := SM_MAX_STATE sm; SM_MAX_EVENT := SM_MAX_EVENT sm;
     SM_CURRENT_STATE := SM_CURRENT_STATE sm; SM_LOCK := v;
     SM_TRANSITION := SM_TRANSITION sm; SM_DATA := SM_DATA sm |}.

Definition set_transition (v : State_machine_implementation) (sm : State_machine)
  : State_machine :=
  {| SM_MAX_STATE := SM_MAX_STATE sm; SM_MAX_EVENT := SM_MAX_EVENT sm;
     SM_CURRENT_STATE := SM_CURRENT_STATE sm; SM_LOCK := SM_LOCK sm;
     SM_TRANSITION := v; SM_DATA := SM_DATA sm |}.

Definition set_data (v : pointer) (sm : State_machine) : State_machine :=
  {| SM_MAX_STATE := SM_MAX_STATE sm; SM_MAX_EVENT := SM_MAX_EVENT sm;
     SM_CURRENT_STATE := SM_CURRENT_STATE sm; SM_LOCK := SM_LOCK sm;
     SM_TRANSITION := SM_TRANSITION sm; SM_DATA := v |}.

(** [SM_USING_TRANSITION_TABLE(sm) = b] on a machine whose union is still
    zero-filled. *)
Definition set_using_table (b : bool) (sm : State_machine) : State_machine :=
  set_transition (if b then table NULL else function NULL NULL) sm.

(** ** The embedder

    What the engine calls or reads but does not own.  A transition function
    returns its status and, when it stored one, the pointer it stored through
    its [State_machine_transition **] argument. *)
Record Embedder (W : Type) := {
  load : W → pointer → option State_machine_transition;
  run_try_take : funptr → State_machine → W → bool * W;
  run_take : funptr → State_machine → W → W;
  run_give : funptr → State_machine → W → W;
  run_transition_function :
    funptr → uint32 → uint32 → pointer → W → uint32 * option pointer * W;
  run_cleanup : funptr → pointer → pointer → W → uint32 * W;
  run_on_enter :
    funptr → uint32 → uint32 → uint32 → pointer → pointer → W → W;
  run_on_undefined_transition :
    funptr → uint32 → uint32 → pointer → pointer → W → W
}.

Arguments load {W} _ _ _.
Arguments run_try_take {W} _ _ _ _.
Arguments run_take {W} _ _ _ _.
Arguments run_give {W} _ _ _ _.
Arguments run_transition_function {W} _ _ _ _ _ _.
Arguments run_cleanup {W} _ _ _ _ _.
Arguments run_on_enter {W} _ _ _ _ _ _ _ _.
Arguments run_on_undefined_transition {W} _ _ _ _ _ _ _.

(** Calls into embedder code, with their arguments. *)
Inductive call :=
| call_try_take (f : funptr)
| call_take (f : funptr)
| call_give (f : funptr)
| call_transition_function (f : funptr) (current_state event : uint32)
    (data : pointer)
| call_on_enter (f : funptr) (cause current_state previous_state : uint32)
    (event_data data : pointer)
| call_on_undefined_transition (f : funptr) (cause current_state : uint32)
    (event_data data : pointer)
| call_cleanup (f : funptr) (data transition : pointer).

Definition is_call_cleanup (c : call) : bool :=
  match c with call_cleanup _ _ _ => true | _ => false end.

Definition is_call_callback (c : call) : bool :=
  match c with
  | call_on_enter _ _ _ _ _ _ | call_on_undefined_transition _ _ _ _ _ => true
  | _ => false
  end.

Definition is_call_transition_function (c : call) : bool :=
  match c with call_transition_function _ _ _ _ => true | _ => false end.

Definition is_call_lock (c : call) : bool :=
  match c with
  | call_try_take _ | call_take _ | call_give _ => true
  | _ => false
  end.

Inductive fault :=
| assertion_failed (line : nat)
| invalid_read.

(** ** The engine monad: state, faults and the call log *)

Record St (W : Type) := {
  machine : State_machine;
  world : W;
  calls : list call
}.

Arguments machine {W} _.
Arguments world {W} _.
Arguments calls {W} _.

Inductive outcome (W A : Type) :=
| Ret (a : A) (s : St W)
| Fault (f : fault).

Arguments Ret {W A} _ _.
Arguments Fault {W A} _.

Definition M (W A : Type) : Type := St W → outcome W A.

#[global] Instance M_ret {W} : MRet (M W) := λ A a s, Ret a s.

#[global] Instance M_bind {W} : MBind (M W) := λ A B f m s,
  match m s with
  | Ret a s' => f a s'
  | Fault e => Fault e
  end.

Section Engine.

Context {W : Type} (E : Embedder W).

Definition get_sm : M W State_machine := λ s, Ret (machine s) s.

Definition modify_sm (f : State_machine → State_machine) : M W unit := λ s,
  Ret () {| machine := f (machine s); world := world s; calls := calls s |}.

Definition assert (line : nat) (b : bool) : M W unit := λ s,
  if b then Ret () s else Fault (assertion_failed line).

(** [*p] for a [State_machine_transition *p]; [None] is a pointer that was
    never assigned. *)
Definition deref (p : option pointer) : M W State_machine_transition := λ s,
  match p with
  | Some a =>
      match load E (world s) a with
      | Some t => Ret t s
      | None => Fault invalid_read
      end
  | None => Fault invalid_read
  end.

(** A call into embedder code: logged, and run on the embedder's world. *)
Definition extern {A} (c : call) (f : W → A * W) : M W A := λ s,
  let '(a, w) := f (world s) in
  Ret a {| machine := machine s; world := w; calls := calls s ++ [c] |}.

Definition ASSERT_LOCKING_DEFINITION_CONSISTENCY (line : nat)
  (lock : State_machine_locking) : M W unit :=
  assert line (locking_definition_consistent lock).

Definition ASSERT_NOT_NULL (line : nat) (x : N) : M W unit :=
  assert line (negb (x =? NULL)).

(** ** Initialisation

    The state on entry holds whatever the storage [*sm] contains before the
    call. *)
Definition state_machine_init_common
  (max_state max_event init_state : uint32) (lock : State_machine_locking)
  (using_transition_table : bool) (data : pointer) : M W unit :=
  sm ← get_sm;
  assert 85 (0 <? max_state);;
  assert 86 (0 <? max_event);;
  assert 87 (init_state <? max_state);;
  ASSERT_LOCKING_DEFINITION_CONSISTENCY 88 (SM_LOCK sm);;
  modify_sm (λ _, zeroed_machine);;
  modify_sm (set_max_state max_state);;
  modify_sm (set_max_event max_event);;
  modify_sm (set_current_state init_state);;
  modify_sm (set_lock lock);;
  modify_sm (set_using_table using_transition_table);;
  modify_sm (set_data data).

Definition state_machine_init_table
  (max_state max_event init_state : uint32) (locking : State_machine_locking)
  (transition_table : pointer) (data : pointer) : M W unit :=
  ASSERT_NOT_NULL 107 transition_table;;
  state_machine_init_common max_state max_event init_state locking true data;;
  modify_sm (set_transition (table transition_table)).

Definition state_machine_init_function
  (max_state max_event init_state : uint32) (locking : State_machine_locking)
  (transition cleanup : funptr) (data : pointer) : M W unit :=
  ASSERT_NOT_NULL 126 transition;;
  state_machine_init_common max_state max_event init_state locking false data;;
  modify_sm (set_transition (function transition cleanup)).

(** ** Locking wrappers *)

Definition lock_take (flags : uint32) : M W uint32 :=
  sm ← get_sm;
  ASSERT_LOCKING_DEFINITION_CONSISTENCY 141 (SM_LOCK sm);;
  if USE_LOCKING sm then
    if negb (N.land flags STATE_MACHINE_NONBLOCK =? 0) then
      taken ← extern (call_try_take (try_take (SM_LOCK sm)))
                 (run_try_take E (try_take (SM_LOCK sm)) sm);
      if negb taken then mret STATE_MACHINE_WOULD_BLOCK
      else mret STATE_MACHINE_SUCCESS
    else
      extern (call_take (take (SM_LOCK sm)))
        (λ w, ((), run_take E (take (SM_LOCK sm)) sm w));;
      mret STATE_MACHINE_SUCCESS
  else mret STATE_MACHINE_SUCCESS.

Definition lock_give : M W unit :=
  sm ← get_sm;
  ASSERT_LOCKING_DEFINITION_CONSISTENCY 165 (SM_LOCK sm);;
  if USE_LOCKING sm then
    extern (call_give (give (SM_LOCK sm)))
      (λ w, ((), run_give E (give (SM_LOCK sm)) sm w))
  else mret ().

(** ** [state_machine_current_state]

    [state] is the content of the caller's cell [*state] on entry; the second
    component of the result is its content on return. *)
Definition state_machine_current_state (state : uint32) (flags : uint32)
  : M W (uint32 * uint32) :=
  ret ← lock_take flags;
  if is_sm_failure ret then mret (ret, state)
  else
    sm ← get_sm;
    let state := SM_CURRENT_STATE sm in
    lock_give;;
    mret (ret, state).

(** ** [state_machine_event]

    The local variables that are live after the critical section. *)
Record locals := {
  l_ret : uint32;
  l_transition : option pointer;
  l_current_state : uint32;
  l_previous_state : uint32;
  l_data : pointer
}.

(** Lines 234-259: the transition is looked up in the table or computed by
    the transition function.  [ret] is what [lock_take] returned; the table
    branch leaves it alone. *)
Definition resolve (ret : uint32) (max_event current_state event : uint32)
  (data : pointer) : M W (uint32 * option pointer) :=
  sm ← get_sm;
  match SM_TRANSITION sm with
  | table transition_table =>
      mret (ret, Some (transition_table + (current_state * max_event + event)))
  | function transition_function _ =>
      extern (call_transition_function transition_function current_state event data)
        (run_transition_function E transition_function current_state event data)
  end.

(** Lines 267-272: the only assignment to [sm->current_state].  Returns the
    locals [current_state] and [previous_state]. *)
Definition apply_transition (ret : uint32) (transition : option pointer)
  (current_state previous_state : uint32) : M W (uint32 * uint32) :=
  if is_sm_success ret then
    t ← deref transition;
    match result t with
    | RESULT_TRANSITION next_state _ =>
        modify_sm (set_current_state next_state);;
        mret (next_state, current_state)
    | RESULT_NO_TRANSITION _ => mret (current_state, previous_state)
    end
  else mret (current_state, previous_state).

(** Lines 199-279.  [inl ret] is the early return of line 216. *)
Definition critical_section (event flags : uint32) : M W (uint32 + locals) :=
  ret ← lock_take flags;
  if is_sm_failure ret then mret (inl ret)
  else
    sm ← get_sm;
    let max_event := SM_MAX_EVENT sm in
    let max_state := SM_MAX_STATE sm in
    let current_state := SM_CURRENT_STATE sm in
    let data := SM_DATA sm in
    let previous_state := max_state in
    assert 231 (event <? max_event);;
    assert 232 (current_state <? max_state);;
    '(ret, transition) ← resolve ret max_event current_state event data;
    '(current_state, previous_state) ←
      apply_transition ret transition current_state previous_state;
    assert 274 (current_state <? max_state);;
    sm ← get_sm;
    assert 275 (SM_CURRENT_STATE sm =? current_state);;
    lock_give;;
    mret (inr {| l_ret := ret; l_transition := transition;
                 l_current_state := current_state;
                 l_previous_state := previous_state; l_data := data |}).

(** Lines 312-330: the callback of the transition, outside the critical
    section. *)
Definition invoke_callback (event : uint32) (event_data : pointer) (l : locals)
  : M W unit :=
  t ← deref (l_transition l);
  match result t with
  | RESULT_TRANSITION _ on_enter =>
      if negb (on_enter =? NULL) then
        extern (call_on_enter on_enter event (l_current_state l)
                  (l_previous_state l) event_data (l_data l))
          (λ w, ((), run_on_enter E on_enter event (l_current_state l)
                       (l_previous_state l) event_data (l_data l) w))
      else mret ()
  | RESULT_NO_TRANSITION on_undefined_transition =>
      if negb (on_undefined_transition =? NULL) then
        extern (call_on_undefined_transition on_undefined_transition event
                  (l_current_state l) event_data (l_data l))
          (λ w, ((), run_on_undefined_transition E on_undefined_transition event
                       (l_current_state l) event_data (l_data l) w))
      else mret ()
  end.

(** Lines 337-350: the cleanup function of a transition function, and the
    return value of [state_machine_event]. *)
Definition invoke_cleanup (l : locals) : M W uint32 :=
  sm ← get_sm;
  match SM_TRANSITION sm with
  | table _ => mret (l_ret l)
  | function _ cleanup =>
      if negb (cleanup =? NULL) then
        match l_transition l with
        | Some transition =>
            extern (call_cleanup cleanup (l_data l) transition)
              (run_cleanup E cleanup (l_data l) transition)
        | None => λ _, Fault invalid_read
        end
      else mret (l_ret l)
  end.

Definition state_machine_event (event : uint32) (event_data : pointer)
  (flags : uint32) : M W uint32 :=
  r ← critical_section event flags;
  match r with
  | inl ret => mret ret
  | inr l =>
      if is_sm_failure (l_ret l) then mret (l_ret l)
      else
        invoke_callback event event_data l;;
        invoke_cleanup l
  end.

(** A run of the critical section that goes through, step by step: the state
    [s0] after [lock_take], [sr] after the resolution, [sa] after the
    assignment of lines 267-272. *)
Definition critical_run (event flags : uint32) (s : St W) (l : locals)
  (s' : St W) : Prop :=
  ∃ s0 sr sa,
    lock_take flags s = Ret STATE_MACHINE_SUCCESS s0
    ∧ event < SM_MAX_EVENT (machine s)
    ∧ SM_CURRENT_STATE (machine s) < SM_MAX_STATE (machine s)
    ∧ resolve STATE_MACHINE_SUCCESS (SM_MAX_EVENT (machine s))
        (SM_CURRENT_STATE (machine s)) event (SM_DATA (machine s)) s0
      = Ret (l_ret l, l_transition l) sr
    ∧ apply_transition (l_ret l) (l_transition l)
        (SM_CURRENT_STATE (machine s)) (SM_MAX_STATE (machine s)) sr
      = Ret (l_current_state l, l_previous_state l) sa
    ∧ l_current_state l < SM_MAX_STATE (machine s)
    ∧ SM_CURRENT_STATE (machine sa) = l_current_state l
    ∧ lock_give sa = Ret () s'
    ∧ l_data l = SM_DATA (machine s).

(** ** Notions used by the properties *)

(** The nonblocking acquisition fails: locking is in use, the flag is set and
    [try_take] returns [false]. *)
Definition nonblocking_take_fails (flags : uint32) (s : St W) : bool :=
  USE_LOCKING (machine s)
  && negb (N.land flags STATE_MACHINE_NONBLOCK =? 0)
  && negb (run_try_take E (try_take (SM_LOCK (machine s))) (machine s)
             (world s)).1.

Definition machine_invariant (sm : State_machine) : Prop :=
  SM_CURRENT_STATE sm < SM_MAX_STATE sm.

(** Two machine records that differ at most in [current_state]. *)
Definition same_configuration (sm sm' : State_machine) : Prop :=
  SM_MAX_STATE sm' = SM_MAX_STATE sm
  ∧ SM_MAX_EVENT sm' = SM_MAX_EVENT sm
  ∧ SM_LOCK sm' = SM_LOCK sm
  ∧ SM_TRANSITION sm' = SM_TRANSITION sm
  ∧ SM_DATA sm' = SM_DATA sm.

(** The strategy of [sm] only produces [Transition] results whose
    [next_state] is below [max_state]: whatever the state of the embedder,
    for every state and event in range. *)
Definition strategy_bounded (sm : State_machine) : Prop :=
  ∀ (s sr : St W) (event ret : uint32) (p : pointer)
    (t : State_machine_transition) (next_state : uint32) (on_enter : funptr),
    same_configuration sm (machine s) →
    SM_CURRENT_STATE (machine s) < SM_MAX_STATE sm →
    event < SM_MAX_EVENT sm →
    resolve STATE_MACHINE_SUCCESS (SM_MAX_EVENT sm)
      (SM_CURRENT_STATE (machine s)) event (SM_DATA sm) s
      = Ret (ret, Some p) sr →
    ret = STATE_MACHINE_SUCCESS →
    load E (world sr) p = Some t →
    result t = RESULT_TRANSITION next_state on_enter →
    next_state < SM_MAX_STATE sm.

(** The transition record at [p] stays readable, and leads below
    [max_state] if it is a [Transition]. *)
Definition valid_transition (max_state : uint32) (p : pointer) : Prop :=
  ∀ w, ∃ t, load E w p = Some t
            ∧ ∀ next_state on_enter,
                result t = RESULT_TRANSITION next_state on_enter →
                next_state < max_state.

(** One returning call of the public interface after initialisation. *)
Inductive api_step : St W → St W → Prop :=
| step_event s event event_data flags r s' :
    event < SM_MAX_EVENT (machine s) →
    state_machine_event event event_data flags s = Ret r s' →
    api_step s s'
| step_current_state s state flags r s' :
    state_machine_current_state state flags s = Ret r s' →
    api_step s s'.

(** The calls a dispatch makes around its critical section: the acquisition
    of [lock_take], the resolution, and the release of [lock_give]. *)
Definition acquire_calls (flags : uint32) (sm : State_machine) : list call :=
  if USE_LOCKING sm then
    [if negb (N.land flags STATE_MACHINE_NONBLOCK =? 0)
     then call_try_take (try_take (SM_LOCK sm))
     else call_take (take (SM_LOCK sm))]
  else [].

Definition give_calls (sm : State_machine) : list call :=
  if USE_LOCKING sm then [call_give (give (SM_LOCK sm))] else [].

Definition resolve_calls (sm : State_machine) (event : uint32) : list call :=
  match SM_TRANSITION sm with
  | table _ => []
  | function transition_function _ =>
      [call_transition_function transition_function (SM_CURRENT_STATE sm)
         event (SM_DATA sm)]
  end.

(** What a callback recorded in the log was told. *)
Definition callback_told (event : uint32) (event_data : pointer)
  (before after : State_machine) (c : call) : Prop :=
  match c with
  | call_on_enter _ cause current_state previous_state event_data' data =>
      cause = event ∧ current_state = SM_CURRENT_STATE after
      ∧ (previous_state = SM_CURRENT_STATE before
         ∨ previous_state = SM_MAX_STATE before)
      ∧ event_data' = event_data ∧ data = SM_DATA before
  | call_on_undefined_transition _ cause current_state event_data' data =>
      cause = event ∧ current_state = SM_CURRENT_STATE after
      ∧ event_data' = event_data ∧ data = SM_DATA before
  | _ => True
  end.

End Engine.

(** Replaces the memory of transition records seen by the engine. *)
Definition with_load {W} (ld : W → pointer → option State_machine_transition)
  (E : Embedder W) : Embedder W :=
  {| load := ld;
     run_try_take := run_try_take E;
     run_take := run_take E;
     run_give := run_give E;
     run_transition_function := run_transition_function E;
     run_cleanup := run_cleanup E;
     run_on_enter := run_on_enter E;
     run_on_undefined_transition := run_on_undefined_transition E |}.

(** ** Callbacks that reach the machine

    [on_enter], [on_undefined_transition] and the cleanup function are called
    after [lock_give], outside the critical section (lines 294-350), so that
    they may use the interface on the same machine again.  A handler is
    therefore a computation on the whole state: machine, world and log. *)
Record Handlers (W : Type) := {
  on_enter_handler :
    funptr → uint32 → uint32 → uint32 → pointer → pointer → M W unit;
  on_undefined_transition_handler :
    funptr → uint32 → uint32 → pointer → pointer → M W unit;
  cleanup_handler : funptr → pointer → pointer → M W uint32
}.

Arguments on_enter_handler {W} _ _ _ _ _ _ _.
Arguments on_undefined_transition_handler {W} _ _ _ _ _ _.
Arguments cleanup_handler {W} _ _ _ _.

(** A computation that leaves the machine as it finds it. *)
Definition keeps_machine {W A} (m : M W A) : Prop :=
  ∀ s a s', m s = Ret a s' → machine s' = machine s.

Definition leave_machine {W} (H : Handlers W) : Prop :=
  (∀ f cause current_state previous_state event_data data,
      keeps_machine (on_enter_handler H f cause current_state previous_state
                       event_data data))
  ∧ (∀ f cause current_state event_data data,
        keeps_machine (on_undefined_transition_handler H f cause current_state
                         event_data data))
  ∧ (∀ f data transition, keeps_machine (cleanup_handler H f data transition)).

(** The handlers of an embedder whose callbacks and cleanup act on its world
    alone. *)
Definition plain_handlers {W} (E : Embedder W) : Handlers W :=
  {| on_enter_handler f cause current_state previous_state event_data data :=
       λ s, Ret ()
              {| machine := machine s;
                 world := run_on_enter E f cause current_state previous_state
                            event_data data (world s);
                 calls := calls s |};
     on_undefined_transition_handler f cause current_state event_data data :=
       λ s, Ret ()
              {| machine := machine s;
                 world := run_on_undefined_transition E f cause current_state
                            event_data data (world s);
                 calls := calls s |};
     cleanup_handler f data transition :=
       λ s, let '(r, w) := run_cleanup E f data transition (world s) in
            Ret r {| machine := machine s; world := w; calls := calls s |} |}.

Module Chained.

Section Dispatch.

Context {W : Type} (E : Embedder W) (H : Handlers W).

Definition log_call (c : call) : M W unit := λ s,
  Ret () {| machine := machine s; world := world s; calls := calls s ++ [c] |}.

(** Lines 312-330. *)
Definition invoke_callback (event : uint32) (event_data : pointer) (l : locals)
  : M W unit :=
  t ← deref E (l_transition l);
  match result t with
  | RESULT_TRANSITION _ on_enter =>
      if negb (on_enter =? NULL) then
        log_call (call_on_enter on_enter event (l_current_state l)
                    (l_previous_state l) event_data (l_data l));;
        on_enter_handler H on_enter event (l_current_state l)
          (l_previous_state l) event_data (l_data l)
      else mret ()
  | RESULT_NO_TRANSITION on_undefined_transition =>
      if negb (on_undefined_transition =? NULL) then
        log_call (call_on_undefined_transition on_undefined_transition event
                    (l_current_state l) event_data (l_data l));;
        on_undefined_transition_handler H on_undefined_transition event
          (l_current_state l) event_data (l_data l)
      else mret ()
  end.

(** Lines 337-350; the strategy is read from the machine as the callback
    left it. *)
Definition invoke_cleanup (l : locals) : M W uint32 :=
  sm ← get_sm;
  match SM_TRANSITION sm with
  | table _ => mret (l_ret l)
  | function _ cleanup =>
      if negb (cleanup =? NULL) then
        match l_transition l with
        | Some transition =>
            log_call (call_cleanup cleanup (l_data l) transition);;
            cleanup_handler H cleanup (l_data l) transition
        | None => λ _, Fault invalid_read
        end
      else mret (l_ret l)
  end.

Definition state_machine_event (event : uint32) (event_data : pointer)
  (flags : uint32) : M W uint32 :=
  r ← critical_section E event flags;
  match r with
  | inl ret => mret ret
  | inr l =>
      if is_sm_failure (l_ret l) then mret (l_ret l)
      else
        invoke_callback event event_data l;;
        invoke_cleanup l
  end.

(** The handler a logged callback call stands for. *)
Definition handle (c : call) : M W unit :=
  match c with
  | call_on_enter f cause current_state previous_state event_data data =>
      on_enter_handler H f cause current_state previous_state event_data data
  | call_on_undefined_transition f cause current_state event_data data =>
      on_undefined_transition_handler H f cause current_state event_data data
  | _ => mret ()
  end.

End Dispatch.

End Chained.

(** ** An embedder: the machine of [example/simple.c]

    Three states, two events and the transition table of the example, plus
    what the example leaves out: a lock, transition functions and cleanup
    functions. *)
Module Demo.

Definition STATE_0 : uint32 := 0.
Definition STATE_1 : uint32 := 1.
Definition STATE_2 : uint32 := 2.
Definition MAX_STATE : uint32 := 3.

Definition EVENT_INC : uint32 := 0.
Definition EVENT_DEC : uint32 := 1.
Definition MAX_EVENT : uint32 := 2.

(** Addresses of the embedder's functions. *)
Definition on_enter : funptr := 11.
Definition on_undefined : funptr := 12.
Definition lookup_function : funptr := 21.
Definition failing_function : funptr := 22.
Definition busy_function : funptr := 23.
Definition cleanup_done : funptr := 31.
Definition cleanup_failing : funptr := 32.
Definition mutex_try_take : funptr := 41.
Definition mutex_take : funptr := 42.
Definition mutex_give : funptr := 43.

Definition transition_table : list State_machine_transition := [
  STATE_MACHINE_TRANSITION STATE_0 EVENT_INC STATE_1 on_enter;
  STATE_MACHINE_NO_TRANSITION STATE_0 EVENT_DEC on_undefined;
  STATE_MACHINE_TRANSITION STATE_1 EVENT_INC STATE_2 on_enter;
  STATE_MACHINE_TRANSITION STATE_1 EVENT_DEC STATE_0 on_enter;
  STATE_MACHINE_NO_TRANSITION STATE_2 EVENT_INC on_undefined;
  STATE_MACHINE_TRANSITION STATE_2 EVENT_DEC STATE_1 on_enter
].

(** Where the table is stored. *)
Definition table_address : pointer := 256.

(** The embedder's world: whether the mutex is held, the lines printed by the
    callbacks and the number of cleanups done. *)
Record env := {
  held : bool;
  printed : list (list N);
  cleaned : nat
}.

Definition do_load (w : env) (p : pointer) : option State_machine_transition :=
  if table_address <=? p then transition_table !! N.to_nat (p - table_address)
  else None.

Definition do_try_take (f : funptr) (sm : State_machine) (w : env)
  : bool * env :=
  if held w then (false, w)
  else (true, {| held := true; printed := printed w; cleaned := cleaned w |}).

Definition do_take (f : funptr) (sm : State_machine) (w : env) : env :=
  {| held := true; printed := printed w; cleaned := cleaned w |}.

Definition do_give (f : funptr) (sm : State_machine) (w : env) : env :=
  {| held := false; printed := printed w; cleaned := cleaned w |}.

Definition do_transition_function (f : funptr) (current_state event : uint32)
  (data : pointer) (w : env) : uint32 * option pointer * env :=
  if f =? lookup_function then
    (STATE_MACHINE_SUCCESS,
     Some (table_address + (current_state * MAX_EVENT + event)), w)
  else if f =? busy_function then (1, None, w)
  else (7, None, w).

Definition do_cleanup (f : funptr) (data transition : pointer) (w : env)
  : uint32 * env :=
  (if f =? cleanup_failing then 9 else STATE_MACHINE_SUCCESS,
   {| held := held w; printed := printed w; cleaned := S (cleaned w) |}).

Definition do_on_enter (f : funptr) (cause current_state previous_state : uint32)
  (event_data data : pointer) (w : env) : env :=
  {| held := held w;
     printed := printed w ++ [[cause; current_state; previous_state]];
     cleaned := cleaned w |}.

Definition do_on_undefined_transition (f : funptr) (cause current_state : uint32)
  (event_data data : pointer) (w : env) : env :=
  {| held := held w;
     printed := printed w ++ [[cause; current_state]];
     cleaned := cleaned w |}.

Definition embedder : Embedder env :=
  {| load := do_load;
     run_try_take := do_try_take;
     run_take := do_take;
     run_give := do_give;
     run_transition_function := do_transition_function;
     run_cleanup := do_cleanup;
     run_on_enter := do_on_enter;
     run_on_undefined_transition := do_on_undefined_transition |}.

Definition mutex : State_machine_locking :=
  {| try_take := mutex_try_take; take := mutex_take; give := mutex_give |}.

Definition idle : env := {| held := false; printed := []; cleaned := 0 |}.
Definition contended : env := {| held := true; printed := []; cleaned := 0 |}.

(** A machine in state [current_state], as the initialisers build it. *)
Definition machine_of (lock : State_machine_locking)
  (impl : State_machine_implementation) (current_state : uint32) : State_machine :=
  {| SM_MAX_STATE := MAX_STATE; SM_MAX_EVENT := MAX_EVENT;
     SM_CURRENT_STATE := current_state; SM_LOCK := lock;
     SM_TRANSITION := impl; SM_DATA := NULL |}.

Definition start (sm : State_machine) (w : env) : St env :=
  {| machine := sm; world := w; calls := [] |}.

Definition table_machine : uint32 → State_machine :=
  machine_of STATE_MACHINE_NO_LOCKING (table table_address).

Definition locked_table_machine : uint32 → State_machine :=
  machine_of mutex (table table_address).

Definition function_machine (transition cleanup : funptr)
  : uint32 → State_machine :=
  machine_of STATE_MACHINE_NO_LOCKING (function transition cleanup).

Definition locked_function_machine (transition cleanup : funptr)
  : uint32 → State_machine :=
  machine_of mutex (function transition cleanup).

(** A locking argument with [take] alone. *)
Definition take_only : State_machine_locking :=
  {| try_take := NULL; take := mutex_take; give := NULL |}.

(** [EVENT_DEC] in [STATE_1] under the mutex: the states after [lock_take],
    after the critical section and after [on_enter]. *)
Definition dec_taken (sm : State_machine) : St env :=
  {| machine := sm; world := contended; calls := [call_take mutex_take] |}.

Definition dec_given (f c : funptr) : St env :=
  {| machine := locked_function_machine f c STATE_0;
     world := idle;
     calls := [call_take mutex_take;
               call_transition_function f STATE_1 EVENT_DEC NULL;
               call_give mutex_give] |}.

Definition dec_entered (f c : funptr) : St env :=
  {| machine := locked_function_machine f c STATE_0;
     world := {| held := false; printed := [[EVENT_DEC; STATE_0; STATE_1]];
                 cleaned := 0 |};
     calls := calls (dec_given f c) ++
              [call_on_enter on_enter EVENT_DEC STATE_0 STATE_1 NULL NULL] |}.

Definition dec_cleaned (f c : funptr) : St env :=
  {| machine := locked_function_machine f c STATE_0;
     world := {| held := false; printed := [[EVENT_DEC; STATE_0; STATE_1]];
                 cleaned := 1 |};
     calls := calls (dec_entered f c) ++
              [call_cleanup c NULL (table_address + 3)] |}.

(** The table of the example declared with two states only: in [STATE_1],
    [EVENT_INC] leads out of range. *)
Definition short_machine : State_machine :=
  {| SM_MAX_STATE := 2; SM_MAX_EVENT := MAX_EVENT;
     SM_CURRENT_STATE := STATE_1; SM_LOCK := STATE_MACHINE_NO_LOCKING;
     SM_TRANSITION := table table_address; SM_DATA := NULL |}.

(** [lookup_function] with four states declared: in state [3] it returns a
    pointer past the table. *)
Definition wide_machine : State_machine :=
  {| SM_MAX_STATE := 4; SM_MAX_EVENT := MAX_EVENT;
     SM_CURRENT_STATE := 3; SM_LOCK := STATE_MACHINE_NO_LOCKING;
     SM_TRANSITION := function lookup_function NULL; SM_DATA := NULL |}.

(** Handlers that send a further event: [on_enter] reached through
    [EVENT_INC] in [STATE_1] sends [EVENT_INC] again, and
    [on_undefined_transition] sends [EVENT_DEC]; both print first, as the
    callbacks of the example do.  The event they send is dispatched with the
    callbacks of [embedder]. *)
Definition chaining : Handlers env :=
  {| on_enter_handler f cause current_state previous_state event_data data :=
       on_enter_handler (plain_handlers embedder) f cause current_state
         previous_state event_data data;;
       if (cause =? EVENT_INC) && (current_state =? STATE_1) then
         state_machine_event embedder EVENT_INC NULL 0;; mret ()
       else mret ();
     on_undefined_transition_handler f cause current_state event_data data :=
       on_undefined_transition_handler (plain_handlers embedder) f cause
         current_state event_data data;;
       state_machine_event embedder EVENT_DEC NULL 0;; mret ();
     cleanup_handler := cleanup_handler (plain_handlers embedder) |}.

(** [EVENT_INC] in [STATE_0] with [lookup_function], [cleanup_failing] and
    the handlers [chaining], without locking: the locals and the state after
    the critical section, the state [on_enter] leaves, which has sent
    [EVENT_INC] again, and the state the cleanup function leaves. *)
Definition inc_locals : locals :=
  {| l_ret := STATE_MACHINE_SUCCESS;
     l_transition := Some table_address;
     l_current_state := STATE_1; l_previous_state := STATE_0;
     l_data := NULL |}.

Definition inc_given : St env :=
  {| machine := function_machine lookup_function cleanup_failing STATE_1;
     world := idle;
     calls := [call_transition_function lookup_function STATE_0 EVENT_INC NULL]
  |}.

Definition inc_chained : St env :=
  {| machine := function_machine lookup_function cleanup_failing STATE_2;
     world := {| held := false;
                 printed := [[EVENT_INC; STATE_1; STATE_0];
                             [EVENT_INC; STATE_2; STATE_1]];
                 cleaned := 1 |};
     calls := calls inc_given ++
              [call_on_enter on_enter EVENT_INC STATE_1 STATE_0 NULL NULL;
               call_transition_function lookup_function STATE_1 EVENT_INC NULL;
               call_on_enter on_enter EVENT_INC STATE_2 STATE_1 NULL NULL;
               call_cleanup cleanup_failing NULL (table_address + 2)] |}.


(** [EVENT_INC] in [STATE_2] on the table machine with the handlers
    [chaining], without locking: the state in which the dispatch returns,
    after [on_undefined_transition] has sent [EVENT_DEC]. *)
Definition inc_undefined : St env :=
  {| machine := table_machine STATE_1;
     world := {| held := false;
                 printed := [[EVENT_INC; STATE_2];
                             [EVENT_DEC; STATE_1; STATE_2]];
                 cleaned := 0 |};
     calls := [call_on_undefined_transition on_undefined EVENT_INC STATE_2
                 NULL NULL;
               call_on_enter on_enter EVENT_DEC STATE_1 STATE_2 NULL NULL] |}.

(** The name tables of [example/simple.c] and the macros that index them;
    [None] is a read past the end of the array. *)
Definition state_names : list string :=
  ["STATE_0"; "STATE_1"; "STATE_2"; "unknown"]%string.

Definition event_names : list string :=
  ["EVENT_INC"; "EVENT_DEC"; "unknown"]%string.

Definition x_to_str {A} (arr : list A) (maxidx x : uint32) : option A :=
  if x <? maxidx then arr !! N.to_nat x else arr !! N.to_nat maxidx.

Definition state_to_str (s : uint32) : option string :=
  x_to_str state_names MAX_STATE s.

Definition event_to_str (e : uint32) : option string :=
  x_to_str event_names MAX_EVENT e.

(** The loop of [main]: the events are sent one after the other with
    [flags = 0], until one fails. *)
Fixpoint send_all (events : list uint32) : M env unit :=
  match events with
  | [] => mret ()
  | event :: events =>
      ret ← state_machine_event embedder event NULL 0;
      if is_sm_failure ret then mret () else send_all events
  end.

End Demo.

(** The calls made between two states of one run. *)
Definition calls_since {W} (s s' : St W) (l : list call) : Prop :=
  calls s' = calls s ++ l.

(** * Properties *)

Section Properties.

Context {W : Type} (E : Embedder W).

Implicit Types (s : St W) (flags event : uint32) (event_data : pointer).

(** ** The monad *)

Lemma bind_ret {A B} (m : M W A) (f : A → M W B) s a s1 :
  m s = Ret a s1 → (m ≫= f) s = f a s1.
Proof. intros H. unfold mbind, M_bind. by rewrite H. Qed.

Lemma bind_fault {A B} (m : M W A) (f : A → M W B) s e :
  m s = Fault e → (m ≫= f) s = Fault e.
Proof. intros H. unfold mbind, M_bind. by rewrite H. Qed.

Lemma bind_ret_inv {A B} (m : M W A) (f : A → M W B) s b s' :
  (m ≫= f) s = Ret b s' → ∃ a s1, m s = Ret a s1 ∧ f a s1 = Ret b s'.
Proof. unfold mbind, M_bind. destruct (m s) as [a s1|e]; [eauto | done]. Qed.

Lemma bind_fault_inv {A B} (m : M W A) (f : A → M W B) s e :
  (m ≫= f) s = Fault e →
  m s = Fault e ∨ ∃ a s1, m s = Ret a s1 ∧ f a s1 = Fault e.
Proof. unfold mbind, M_bind. destruct (m s) as [a s1|e']; naive_solver. Qed.

Lemma calls_since_refl s : calls_since s s [].
Proof. unfold calls_since. by rewrite app_nil_r. Qed.

Lemma calls_since_trans s1 s2 s3 l1 l2 :
  calls_since s1 s2 l1 → calls_since s2 s3 l2 → calls_since s1 s3 (l1 ++ l2).
Proof. unfold calls_since. intros H1 H2. by rewrite H2, H1, app_assoc. Qed.

Lemma calls_since_inj s s' l1 l2 :
  calls_since s s' l1 → calls_since s s' l2 → l1 = l2.
Proof. unfold calls_since. intros H1 H2. rewrite H1 in H2. by simplify_list_eq. Qed.

Lemma assert_ret_inv line b s u s' :
  assert (W:=W) line b s = Ret u s' → b = true ∧ s' = s.
Proof. unfold assert. destruct b; naive_solver. Qed.

Lemma assert_fault_inv line b s e :
  assert (W:=W) line b s = Fault e → b = false ∧ e = assertion_failed line.
Proof. unfold assert. destruct b; naive_solver. Qed.

Lemma St_eta s : {| machine := machine s; world := world s; calls := calls s |} = s.
Proof. by destruct s. Qed.

(** ** Locking consistency *)

Lemma locking_enabled_consistent lock :
  locking_enabled lock → locking_definition_consistent lock = true.
Proof.
  intros (Ht & Hy & Hg). unfold locking_definition_consistent.
  apply N.eqb_neq in Ht, Hy, Hg. by rewrite Ht, Hy, Hg.
Qed.

Lemma locking_absent_consistent lock :
  locking_absent lock → locking_definition_consistent lock = true.
Proof.
  intros (Ht & Hy & Hg). unfold locking_definition_consistent.
  by rewrite Ht, Hy, Hg.
Qed.

Lemma locking_consistent_cases lock :
  locking_definition_consistent lock = true ↔
  locking_absent lock ∨ locking_enabled lock.
Proof.
  unfold locking_definition_consistent, locking_absent, locking_enabled.
  destruct (N.eqb_spec (take lock) NULL), (N.eqb_spec (try_take lock) NULL),
    (N.eqb_spec (give lock) NULL); simpl; intuition congruence.
Qed.

Lemma locking_partial_inconsistent lock :
  locking_partial lock ↔ locking_definition_consistent lock = false.
Proof.
  unfold locking_definition_consistent, locking_partial.
  destruct (N.eqb_spec (take lock) NULL), (N.eqb_spec (try_take lock) NULL),
    (N.eqb_spec (give lock) NULL); simpl; intuition congruence.
Qed.

(** ** [lock_take] and [lock_give], case by case *)

Ltac unfold_monad :=
  unfold ASSERT_LOCKING_DEFINITION_CONSISTENCY, ASSERT_NOT_NULL, assert,
    extern, modify_sm, get_sm, mbind, M_bind, mret, M_ret in *.

Lemma use_locking_absent sm : locking_absent (SM_LOCK sm) → USE_LOCKING sm = false.
Proof. intros (Ht & _). unfold USE_LOCKING. by rewrite Ht. Qed.

Lemma use_locking_enabled sm : locking_enabled (SM_LOCK sm) → USE_LOCKING sm = true.
Proof.
  intros (Ht & _). unfold USE_LOCKING. by apply N.eqb_neq in Ht as ->.
Qed.

Lemma lock_take_unlocked flags s :
  locking_absent (SM_LOCK (machine s)) →
  lock_take E flags s = Ret STATE_MACHINE_SUCCESS s.
Proof.
  intros Ha. unfold lock_take. unfold_monad.
  by rewrite (locking_absent_consistent _ Ha), (use_locking_absent _ Ha).
Qed.

Lemma lock_take_nonblocking flags s taken w :
  locking_enabled (SM_LOCK (machine s)) →
  N.land flags STATE_MACHINE_NONBLOCK ≠ 0 →
  run_try_take E (try_take (SM_LOCK (machine s))) (machine s) (world s)
    = (taken, w) →
  lock_take E flags s =
    Ret (if taken then STATE_MACHINE_SUCCESS else STATE_MACHINE_WOULD_BLOCK)
      {| machine := machine s; world := w;
         calls := calls s ++ [call_try_take (try_take (SM_LOCK (machine s)))] |}.
Proof.
  intros He Hf Hr. unfold lock_take. unfold_monad.
  rewrite (locking_enabled_consistent _ He), (use_locking_enabled _ He).
  apply N.eqb_neq in Hf as ->. simpl. rewrite Hr. by destruct taken.
Qed.

Lemma lock_take_blocking flags s :
  locking_enabled (SM_LOCK (machine s)) →
  N.land flags STATE_MACHINE_NONBLOCK = 0 →
  lock_take E flags s =
    Ret STATE_MACHINE_SUCCESS
      {| machine := machine s;
         world := run_take E (take (SM_LOCK (machine s))) (machine s) (world s);
         calls := calls s ++ [call_take (take (SM_LOCK (machine s)))] |}.
Proof.
  intros He Hf. unfold lock_take. unfold_monad.
  rewrite (locking_enabled_consistent _ He), (use_locking_enabled _ He).
  by rewrite Hf.
Qed.

Lemma lock_take_inconsistent flags s :
  locking_definition_consistent (SM_LOCK (machine s)) = false →
  lock_take E flags s = Fault (assertion_failed 141).
Proof. intros H. unfold lock_take. unfold_monad. by rewrite H. Qed.

(** What every return of [lock_take] has in common. *)
Lemma lock_take_inv flags s r s' :
  lock_take E flags s = Ret r s' →
  machine s' = machine s
  ∧ locking_definition_consistent (SM_LOCK (machine s)) = true
  ∧ (r = STATE_MACHINE_SUCCESS ∨ r = STATE_MACHINE_WOULD_BLOCK)
  ∧ ∃ l, calls_since s s' l ∧ forallb is_call_lock l = true.
Proof.
  destruct (locking_definition_consistent (SM_LOCK (machine s))) eqn:Hc;
    [| by rewrite lock_take_inconsistent].
  apply locking_consistent_cases in Hc as Hcase. destruct Hcase as [Ha|He].
  - rewrite lock_take_unlocked by done. intros [= <- <-].
    split_and!; eauto using calls_since_refl.
  - destruct (decide (N.land flags STATE_MACHINE_NONBLOCK = 0)) as [Hf|Hf].
    + rewrite lock_take_blocking by done. intros [= <- <-].
      split_and!; eauto. by eexists.
    + destruct (run_try_take E (try_take (SM_LOCK (machine s))) (machine s)
                  (world s)) as [taken w] eqn:Hr.
      rewrite (lock_take_nonblocking _ _ _ _ He Hf Hr). intros [= <- <-].
      split_and!; [done..| destruct taken; eauto |by eexists].
Qed.

Lemma lock_take_fault_inv flags s e :
  lock_take E flags s = Fault e →
  e = assertion_failed 141
  ∧ locking_definition_consistent (SM_LOCK (machine s)) = false.
Proof.
  destruct (locking_definition_consistent (SM_LOCK (machine s))) eqn:Hc.
  - apply locking_consistent_cases in Hc as [Ha|He].
    + by rewrite lock_take_unlocked.
    + destruct (decide (N.land flags STATE_MACHINE_NONBLOCK = 0)) as [Hf|Hf].
      * by rewrite lock_take_blocking.
      * destruct (run_try_take E (try_take (SM_LOCK (machine s))) (machine s)
                    (world s)) as [taken w] eqn:Hr.
        by rewrite (lock_take_nonblocking _ _ _ _ He Hf Hr).
  - rewrite lock_take_inconsistent by done. by intros [= <-].
Qed.

Lemma lock_give_unlocked s :
  locking_absent (SM_LOCK (machine s)) → lock_give E s = Ret () s.
Proof.
  intros Ha. unfold lock_give. unfold_monad.
  by rewrite (locking_absent_consistent _ Ha), (use_locking_absent _ Ha).
Qed.

Lemma lock_give_locked s :
  locking_enabled (SM_LOCK (machine s)) →
  lock_give E s =
    Ret ()
      {| machine := machine s;
         world := run_give E (give (SM_LOCK (machine s))) (machine s) (world s);
         calls := calls s ++ [call_give (give (SM_LOCK (machine s)))] |}.
Proof.
  intros He. unfold lock_give. unfold_monad.
  by rewrite (locking_enabled_consistent _ He), (use_locking_enabled _ He).
Qed.

Lemma lock_give_inconsistent s :
  locking_definition_consistent (SM_LOCK (machine s)) = false →
  lock_give E s = Fault (assertion_failed 165).
Proof. intros H. unfold lock_give. unfold_monad. by rewrite H. Qed.

Lemma lock_give_consistent s :
  locking_definition_consistent (SM_LOCK (machine s)) = true →
  ∃ s' l, lock_give E s = Ret () s' ∧ machine s' = machine s
          ∧ calls_since s s' l ∧ forallb is_call_lock l = true.
Proof.
  intros [Ha|He]%locking_consistent_cases.
  - rewrite lock_give_unlocked by done. exists s, [].
    split_and!; auto using calls_since_refl.
  - rewrite lock_give_locked by done.
    eexists _, [call_give (give (SM_LOCK (machine s)))].
    split_and!; [done..|by unfold calls_since|done].
Qed.

Lemma lock_give_inv s u s' :
  lock_give E s = Ret u s' →
  machine s' = machine s
  ∧ locking_definition_consistent (SM_LOCK (machine s)) = true
  ∧ ∃ l, calls_since s s' l ∧ forallb is_call_lock l = true.
Proof.
  destruct (locking_definition_consistent (SM_LOCK (machine s))) eqn:Hc;
    [| by rewrite lock_give_inconsistent].
  destruct (lock_give_consistent _ Hc) as (s1 & l & -> & ? & ? & ?).
  intros ?; simplify_eq. split_and!; eauto.
Qed.


(** ** Resolution and mutation *)

Lemma resolve_inv ret max_event cur event data s ret' tr s' :
  resolve E ret max_event cur event data s = Ret (ret', tr) s' →
  machine s' = machine s
  ∧ match SM_TRANSITION (machine s) with
    | table transition_table =>
        ret' = ret ∧ tr = Some (transition_table + (cur * max_event + event))
        ∧ s' = s
    | function transition_function _ =>
        run_transition_function E transition_function cur event data (world s)
          = (ret', tr, world s')
        ∧ calls s' = calls s ++
            [call_transition_function transition_function cur event data]
    end.
Proof.
  unfold resolve. unfold_monad.
  destruct (SM_TRANSITION (machine s)) as [tbl|f c].
  - intros [= <- <- <-]. done.
  - destruct run_transition_function as [[r o] w]. intros [= <- <- <-]. done.
Qed.

Lemma resolve_no_fault ret max_event cur event data s e :
  resolve E ret max_event cur event data s ≠ Fault e.
Proof.
  unfold resolve. unfold_monad.
  destruct (SM_TRANSITION (machine s)) as [tbl|f c]; [done|].
  by destruct run_transition_function as [[r o] w].
Qed.

Lemma deref_inv p s t s' :
  deref E p s = Ret t s' →
  s' = s ∧ ∃ a, p = Some a ∧ load E (world s) a = Some t.
Proof.
  unfold deref. destruct p as [a|]; [|done].
  destruct (load E (world s) a) eqn:Hl; [|done]. intros [= <- <-]. eauto.
Qed.

Lemma apply_transition_inv ret tr cur prev s cur' prev' s' :
  apply_transition E ret tr cur prev s = Ret (cur', prev') s' →
  world s' = world s ∧ calls s' = calls s ∧
  ((∃ t next_state on_enter,
       ret = STATE_MACHINE_SUCCESS ∧ deref E tr s = Ret t s
       ∧ result t = RESULT_TRANSITION next_state on_enter
       ∧ cur' = next_state ∧ prev' = cur
       ∧ machine s' = set_current_state next_state (machine s))
   ∨ ((ret ≠ STATE_MACHINE_SUCCESS
       ∨ ∃ t h, deref E tr s = Ret t s ∧ result t = RESULT_NO_TRANSITION h)
      ∧ cur' = cur ∧ prev' = prev ∧ s' = s)).
Proof.
  unfold apply_transition, is_sm_success.
  destruct (N.eqb_spec ret STATE_MACHINE_SUCCESS) as [->|Hne].
  - intros (t & s1 & Hd & Hk)%bind_ret_inv.
    apply deref_inv in Hd as Hd'. destruct Hd' as (-> & _).
    destruct (result t) as [ns h|h] eqn:Hres.
    + unfold_monad. simplify_eq/=. split_and!; [done..|]. left. eauto 10.
    + unfold_monad. simplify_eq/=. split_and!; [done..|]. right. eauto 10.
  - unfold_monad. intros [= <- <- <-]. split_and!; [done..|]. right. eauto.
Qed.
(** ** The critical section *)

Lemma critical_section_inl event flags s r s' :
  critical_section E event flags s = Ret (inl r) s' ↔
  lock_take E flags s = Ret r s' ∧ r ≠ STATE_MACHINE_SUCCESS.
Proof.
  unfold critical_section. split.
  - intros (r0 & s0 & Hl & Hk)%bind_ret_inv. unfold is_sm_failure in Hk.
    destruct (N.eqb_spec r0 STATE_MACHINE_SUCCESS) as [->|Hne]; simpl in Hk.
    + exfalso. revert Hk. unfold_monad.
      repeat (case_match; simplify_eq/=; try done).
    + unfold_monad. by simplify_eq.
  - intros [Hl Hne]. rewrite (bind_ret _ _ _ _ _ Hl). unfold is_sm_failure.
    by apply N.eqb_neq in Hne as ->.
Qed.

Lemma critical_section_inr event flags s l s' :
  critical_section E event flags s = Ret (inr l) s' ↔
  critical_run E event flags s l s'.
Proof.
  unfold critical_section, critical_run. split.
  - intros (r0 & s0 & Hl & Hk)%bind_ret_inv. unfold is_sm_failure in Hk.
    destruct (N.eqb_spec r0 STATE_MACHINE_SUCCESS) as [->|Hne]; simpl in Hk;
      [|by unfold_monad].
    apply lock_take_inv in Hl as Hm. destruct Hm as (Hm & _).
    apply bind_ret_inv in Hk as (sm & s1 & [= <- <-] & Hk). rewrite Hm in Hk.
    apply bind_ret_inv in Hk as ([] & s1 & [He ->]%assert_ret_inv & Hk).
    apply bind_ret_inv in Hk as ([] & s1 & [Hc ->]%assert_ret_inv & Hk).
    apply bind_ret_inv in Hk as ([ret tr] & sr & Hr & Hk).
    apply bind_ret_inv in Hk as ([cur prev] & sa & Ha & Hk).
    apply bind_ret_inv in Hk as ([] & s1 & [Hc' ->]%assert_ret_inv & Hk).
    apply bind_ret_inv in Hk as (sm & s1 & [= <- <-] & Hk).
    apply bind_ret_inv in Hk as ([] & s1 & [Hw ->]%assert_ret_inv & Hk).
    apply bind_ret_inv in Hk as ([] & s1 & Hg & Hk).
    unfold mret, M_ret in Hk. simplify_eq/=.
    exists s0, sr, sa.
    split_and!; try done; first [by apply N.ltb_lt | by apply N.eqb_eq].
  - intros (s0 & sr & sa & Hl & He & Hc & Hr & Ha & Hc' & Hw & Hg & Hd).
    apply lock_take_inv in Hl as Hm. destruct Hm as (Hm & _).
    apply N.ltb_lt in He, Hc, Hc'. apply N.eqb_eq in Hw.
    unfold mbind, M_bind. rewrite Hl. simpl. unfold get_sm, assert.
    rewrite Hm, He, Hc, Hr, Ha, Hc', Hw, Hg. unfold mret, M_ret. do 2 f_equal.
    destruct l; simpl in *; by subst.
Qed.

(** ** Callback and cleanup *)

Lemma invoke_callback_inv event event_data l s u s' :
  invoke_callback E event event_data l s = Ret u s' →
  machine s' = machine s
  ∧ (∃ t, deref E (l_transition l) s = Ret t s)
  ∧ ∃ cs, calls_since s s' cs ∧ forallb is_call_callback cs = true
          ∧ (length cs ≤ 1)%nat.
Proof.
  unfold invoke_callback. intros (t & s1 & Hd & Hk)%bind_ret_inv.
  apply deref_inv in Hd as Hd'. destruct Hd' as (-> & _).
  destruct (result t) as [ns h|h]; unfold_monad;
    case_match; simplify_eq/=; (split_and!; [done|by eauto|]);
    first [ by eexists [_]; split_and!; [reflexivity|done|simpl; lia]
          | exists []; split_and!; [apply calls_since_refl|done|simpl; lia] ].
Qed.

Lemma invoke_cleanup_table l s transition_table :
  SM_TRANSITION (machine s) = table transition_table →
  invoke_cleanup E l s = Ret (l_ret l) s.
Proof. intros H. unfold invoke_cleanup. unfold_monad. by rewrite H. Qed.

Lemma invoke_cleanup_null l s transition :
  SM_TRANSITION (machine s) = function transition NULL →
  invoke_cleanup E l s = Ret (l_ret l) s.
Proof. intros H. unfold invoke_cleanup. unfold_monad. by rewrite H. Qed.

Lemma invoke_cleanup_function l s transition cleanup p r w :
  SM_TRANSITION (machine s) = function transition cleanup →
  cleanup ≠ NULL →
  l_transition l = Some p →
  run_cleanup E cleanup (l_data l) p (world s) = (r, w) →
  invoke_cleanup E l s =
    Ret r {| machine := machine s; world := w;
             calls := calls s ++ [call_cleanup cleanup (l_data l) p] |}.
Proof.
  intros H Hc Hp Hr. unfold invoke_cleanup. unfold_monad. rewrite H.
  apply N.eqb_neq in Hc as ->. simpl. by rewrite Hp, Hr.
Qed.

(** ** [state_machine_event] through its phases *)

Lemma event_would_block event event_data flags s r s' :
  lock_take E flags s = Ret r s' → r ≠ STATE_MACHINE_SUCCESS →
  state_machine_event E event event_data flags s = Ret r s'.
Proof.
  intros Hl Hr. unfold state_machine_event.
  by rewrite (bind_ret _ _ _ (inl r) s') by by apply critical_section_inl.
Qed.

Lemma event_resolution_failed event event_data flags s l s' :
  critical_run E event flags s l s' → l_ret l ≠ STATE_MACHINE_SUCCESS →
  state_machine_event E event event_data flags s = Ret (l_ret l) s'.
Proof.
  intros Hc Hr. unfold state_machine_event.
  rewrite (bind_ret _ _ _ (inr l) s') by by apply critical_section_inr.
  unfold is_sm_failure. by apply N.eqb_neq in Hr as ->.
Qed.

Lemma event_resolved event event_data flags s l s1 :
  critical_run E event flags s l s1 → l_ret l = STATE_MACHINE_SUCCESS →
  state_machine_event E event event_data flags s =
    (invoke_callback E event event_data l ;; invoke_cleanup E l) s1.
Proof.
  intros Hc Hr. unfold state_machine_event.
  rewrite (bind_ret _ _ _ (inr l) s1) by by apply critical_section_inr.
  unfold is_sm_failure. by rewrite Hr.
Qed.

(** Every return of [state_machine_event] is one of three: the early return
    of line 216, the delayed failure of line 291, or the return of line 350
    after callback and cleanup. *)
Lemma event_ret_inv event event_data flags s r s' :
  state_machine_event E event event_data flags s = Ret r s' →
  (lock_take E flags s = Ret r s' ∧ r ≠ STATE_MACHINE_SUCCESS)
  ∨ (∃ l, critical_run E event flags s l s' ∧ l_ret l ≠ STATE_MACHINE_SUCCESS
          ∧ r = l_ret l)
  ∨ (∃ l s1 s2, critical_run E event flags s l s1
                ∧ l_ret l = STATE_MACHINE_SUCCESS
                ∧ invoke_callback E event event_data l s1 = Ret () s2
                ∧ invoke_cleanup E l s2 = Ret r s').
Proof.
  unfold state_machine_event. intros ([r0|l] & s1 & Hc & Hk)%bind_ret_inv.
  - apply critical_section_inl in Hc. unfold_monad. simplify_eq. by left.
  - apply critical_section_inr in Hc. right. unfold is_sm_failure in Hk.
    destruct (N.eqb_spec (l_ret l) STATE_MACHINE_SUCCESS) as [Hs|Hne];
      simpl in Hk.
    + right. apply bind_ret_inv in Hk as ([] & s2 & Hb & Hk). eauto 10.
    + left. unfold_monad. simplify_eq. eauto.
Qed.

Lemma lock_calls_only l :
  forallb is_call_lock l = true →
  Forall (λ c, is_call_transition_function c = false
               ∧ is_call_callback c = false ∧ is_call_cleanup c = false) l.
Proof.
  induction l as [|c l IH]; simpl; [by constructor|].
  intros [Hc Hl]%andb_prop. constructor; [by destruct c | auto].
Qed.

Lemma resolve_function ret max_event cur event data s f c r tr w :
  SM_TRANSITION (machine s) = function f c →
  run_transition_function E f cur event data (world s) = (r, tr, w) →
  resolve E ret max_event cur event data s =
    Ret (r, tr)
      {| machine := machine s; world := w;
         calls := calls s ++ [call_transition_function f cur event data] |}.
Proof. intros H Hr. unfold resolve. unfold_monad. by rewrite H, Hr. Qed.

Lemma resolve_table ret max_event cur event data s transition_table :
  SM_TRANSITION (machine s) = table transition_table →
  resolve E ret max_event cur event data s =
    Ret (ret, Some (transition_table + (cur * max_event + event))) s.
Proof. intros H. unfold resolve. unfold_monad. by rewrite H. Qed.

Lemma apply_transition_failure ret tr cur prev s :
  ret ≠ STATE_MACHINE_SUCCESS →
  apply_transition E ret tr cur prev s = Ret (cur, prev) s.
Proof.
  intros H. unfold apply_transition, is_sm_success.
  by apply N.eqb_neq in H as ->.
Qed.

(** The delayed failure of a transition function, with the state in which
    [state_machine_event] returns: the one [lock_give] leaves. *)
Lemma event_function_failure event event_data flags s s0 f c status tr w :
  SM_TRANSITION (machine s) = function f c →
  lock_take E flags s = Ret STATE_MACHINE_SUCCESS s0 →
  event < SM_MAX_EVENT (machine s) →
  SM_CURRENT_STATE (machine s) < SM_MAX_STATE (machine s) →
  run_transition_function E f (SM_CURRENT_STATE (machine s)) event
    (SM_DATA (machine s)) (world s0) = (status, tr, w) →
  status ≠ STATE_MACHINE_SUCCESS →
  ∃ s' cs,
    lock_give E
      {| machine := machine s; world := w;
         calls := calls s0 ++
           [call_transition_function f (SM_CURRENT_STATE (machine s)) event
              (SM_DATA (machine s))] |} = Ret () s'
    ∧ machine s' = machine s
    ∧ state_machine_event E event event_data flags s = Ret status s'
    ∧ calls_since s s' cs
    ∧ Forall (λ c, is_call_callback c = false ∧ is_call_cleanup c = false) cs.
Proof.
  intros Hf Hl He Hc Hr Hs.
  apply lock_take_inv in Hl as Hm.
  destruct Hm as (Hm & Hcons & _ & l0 & Hl0 & Hl0').
  set (sr := {| machine := machine s; world := w;
                calls := calls s0 ++
                  [call_transition_function f (SM_CURRENT_STATE (machine s))
                     event (SM_DATA (machine s))] |}).
  destruct (lock_give_consistent sr Hcons) as (s' & lg & Hg & Hmg & Hlg & Hlg').
  exists s', (l0 ++ [call_transition_function f (SM_CURRENT_STATE (machine s))
                       event (SM_DATA (machine s))] ++ lg).
  split_and!; [done|done| | |].
  - apply (event_resolution_failed _ _ _ _
      {| l_ret := status; l_transition := tr;
         l_current_state := SM_CURRENT_STATE (machine s);
         l_previous_state := SM_MAX_STATE (machine s);
         l_data := SM_DATA (machine s) |}); [|done].
    exists s0, sr, sr. simpl. split_and!; try done.
    + rewrite (resolve_function _ _ _ _ _ _ f c status tr w); [|by rewrite Hm|done].
      by rewrite Hm.
    + by apply apply_transition_failure.
  - unfold calls_since in *. rewrite Hlg. simpl. rewrite Hl0.
    by rewrite <- !app_assoc.
  - rewrite !Forall_app. split_and!.
    + eapply Forall_impl; [by apply lock_calls_only|]. by intros ? (? & ? & ?).
    + by repeat constructor.
    + eapply Forall_impl; [by apply lock_calls_only|]. by intros ? (? & ? & ?).
Qed.

(** ** Nonblocking acquisition *)

(** C6.  A dispatch with [STATE_MACHINE_NONBLOCK] set on a machine with
    locking enabled, whose [try_take] fails, returns
    [STATE_MACHINE_WOULD_BLOCK]; the machine, and with it [current_state], is
    unchanged, and the only call into embedder code is that [try_take]: no
    transition function, callback or cleanup function is invoked. *)
Theorem event_nonblock_would_block event event_data flags s w :
  locking_enabled (SM_LOCK (machine s)) →
  N.land flags STATE_MACHINE_NONBLOCK ≠ 0 →
  run_try_take E (try_take (SM_LOCK (machine s))) (machine s) (world s)
    = (false, w) →
  ∃ s',
    state_machine_event E event event_data flags s
      = Ret STATE_MACHINE_WOULD_BLOCK s'
    ∧ SM_CURRENT_STATE (machine s') = SM_CURRENT_STATE (machine s)
    ∧ machine s' = machine s
    ∧ calls_since s s' [call_try_take (try_take (SM_LOCK (machine s)))]
    ∧ ∀ cs, calls_since s s' cs →
        Forall (λ c, is_call_transition_function c = false
                     ∧ is_call_callback c = false
                     ∧ is_call_cleanup c = false) cs.
Proof.
  intros He Hf Hr. eexists. split.
  - apply event_would_block; [|done].
    by rewrite (lock_take_nonblocking _ _ _ _ He Hf Hr).
  - split_and!; [done..|].
    intros cs Hcs.
    rewrite (calls_since_inj _ _ _
               [call_try_take (try_take (SM_LOCK (machine s)))] Hcs); [|done].
    by repeat constructor.
Qed.

(** C8.  [state_machine_current_state], on a machine whose locking
    definition is consistent: if the nonblocking acquisition fails it returns
    [STATE_MACHINE_WOULD_BLOCK] and the cell [*state] keeps its content;
    otherwise it returns [STATE_MACHINE_SUCCESS] and [*state] holds the
    machine's [current_state].  The machine is unchanged either way. *)
Theorem current_state_result state flags s :
  locking_definition_consistent (SM_LOCK (machine s)) = true →
  ∃ s',
    state_machine_current_state E state flags s =
      Ret (if nonblocking_take_fails E flags s
           then (STATE_MACHINE_WOULD_BLOCK, state)
           else (STATE_MACHINE_SUCCESS, SM_CURRENT_STATE (machine s))) s'
    ∧ machine s' = machine s.
Proof.
  intros Hc. unfold state_machine_current_state, nonblocking_take_fails.
  unfold mbind, M_bind.
  apply locking_consistent_cases in Hc as Hcase. destruct Hcase as [Ha|He].
  - rewrite (lock_take_unlocked flags s Ha), (use_locking_absent _ Ha). simpl.
    rewrite (lock_give_unlocked s Ha). by exists s.
  - rewrite (use_locking_enabled _ He). simpl.
    destruct (N.eqb_spec (N.land flags STATE_MACHINE_NONBLOCK) 0) as [Hf|Hf];
      simpl.
    + rewrite (lock_take_blocking flags s He Hf). simpl.
      rewrite lock_give_locked by done. by eexists.
    + destruct (run_try_take E (try_take (SM_LOCK (machine s))) (machine s)
                  (world s)) as [taken w] eqn:Hr.
      rewrite (lock_take_nonblocking flags s _ _ He Hf Hr).
      destruct taken; simpl; [|by eexists].
      rewrite lock_give_locked by done. by eexists.
Qed.

(** ** Failure of the transition function *)

(** C5.  A dispatch on a Function-strategy machine that reaches the
    transition function (lock acquired, event and state in range), and whose
    transition function returns a nonzero status, returns that status;
    neither [on_enter] nor [on_undefined_transition] nor the cleanup function
    is among the calls it makes, and the machine is unchanged. *)
Theorem event_propagates_resolver_failure
  event event_data flags s s0 f c status tr w :
  SM_TRANSITION (machine s) = function f c →
  lock_take E flags s = Ret STATE_MACHINE_SUCCESS s0 →
  event < SM_MAX_EVENT (machine s) →
  SM_CURRENT_STATE (machine s) < SM_MAX_STATE (machine s) →
  run_transition_function E f (SM_CURRENT_STATE (machine s)) event
    (SM_DATA (machine s)) (world s0) = (status, tr, w) →
  status ≠ STATE_MACHINE_SUCCESS →
  ∃ s' cs,
    state_machine_event E event event_data flags s = Ret status s'
    ∧ machine s' = machine s
    ∧ calls_since s s' cs
    ∧ Forall (λ c, is_call_callback c = false ∧ is_call_cleanup c = false) cs.
Proof.
  intros Hf Hl He Hc Hr Hs.
  destruct (event_function_failure event event_data flags s s0 f c status tr w)
    as (s' & cs & _ & ? & ? & ? & ?); eauto 10.
Qed.

(** ** What a returning dispatch leaves behind *)

Lemma invoke_cleanup_inv l s r s' :
  invoke_cleanup E l s = Ret r s' →
  machine s' = machine s
  ∧ match SM_TRANSITION (machine s) with
    | table _ => r = l_ret l ∧ s' = s
    | function _ cleanup =>
        if cleanup =? NULL then r = l_ret l ∧ s' = s
        else ∃ p, l_transition l = Some p
                  ∧ run_cleanup E cleanup (l_data l) p (world s) = (r, world s')
                  ∧ calls_since s s' [call_cleanup cleanup (l_data l) p]
    end.
Proof.
  destruct (SM_TRANSITION (machine s)) as [tbl|f c] eqn:Ht.
  - rewrite (invoke_cleanup_table _ _ _ Ht). by intros [= <- <-].
  - destruct (N.eqb_spec c NULL) as [->|Hc].
    + rewrite (invoke_cleanup_null _ _ _ Ht). by intros [= <- <-].
    + destruct (l_transition l) as [p|] eqn:Hp.
      * destruct (run_cleanup E c (l_data l) p (world s)) as [r' w] eqn:Hr.
        rewrite (invoke_cleanup_function _ _ _ _ _ _ _ Ht Hc Hp Hr).
        intros [= <- <-]. split; [done|]. by exists p.
      * unfold invoke_cleanup. unfold_monad. rewrite Ht, Hp.
        by apply N.eqb_neq in Hc as ->.
Qed.

Lemma set_current_state_id sm : set_current_state (SM_CURRENT_STATE sm) sm = sm.
Proof. by destruct sm. Qed.

Lemma set_current_state_same_configuration v sm :
  same_configuration sm (set_current_state v sm).
Proof. done. Qed.

Lemma same_configuration_refl sm : same_configuration sm sm.
Proof. done. Qed.

Lemma same_configuration_trans sm1 sm2 sm3 :
  same_configuration sm1 sm2 → same_configuration sm2 sm3 →
  same_configuration sm1 sm3.
Proof. unfold same_configuration. intros (?&?&?&?&?) (?&?&?&?&?). split_and!; congruence. Qed.

(** The machine a critical section leaves: the one it found, except that
    [current_state] is the local [current_state]. *)
Lemma critical_run_machine event flags s l s' :
  critical_run E event flags s l s' →
  machine s' = set_current_state (l_current_state l) (machine s).
Proof.
  intros (s0 & sr & sa & Hl & _ & _ & Hr & Ha & _ & Hw & Hg & _).
  apply lock_take_inv in Hl as (Hm0 & _).
  apply resolve_inv in Hr as (Hmr & _).
  apply lock_give_inv in Hg as (Hmg & _).
  apply apply_transition_inv in Ha as (_ & _ & Hcase).
  rewrite Hmg. destruct Hcase as [(t & ns & h & _ & _ & _ & <- & _ & ->)
                                 |(_ & Hcur & _ & ->)].
  - rewrite Hmr, Hm0. done.
  - rewrite Hmr, Hm0, Hcur. by destruct (machine s).
Qed.

(** A returning dispatch changes nothing in the machine but [current_state]. *)
Lemma event_same_configuration event event_data flags s r s' :
  state_machine_event E event event_data flags s = Ret r s' →
  same_configuration (machine s) (machine s').
Proof.
  intros [(Hl & _)|[(l & Hc & _)|(l & s1 & s2 & Hc & _ & Hb & Hk)]]%event_ret_inv.
  - apply lock_take_inv in Hl as (-> & _). done.
  - apply critical_run_machine in Hc as ->. done.
  - apply critical_run_machine in Hc. apply invoke_callback_inv in Hb as (Hb & _).
    apply invoke_cleanup_inv in Hk as (-> & _). rewrite Hb, Hc. done.
Qed.

(** ** Dispatches that return *)

Lemma deref_valid max_state p s :
  valid_transition E max_state p →
  ∃ t, deref E (Some p) s = Ret t s
       ∧ ∀ next_state on_enter,
           result t = RESULT_TRANSITION next_state on_enter →
           next_state < max_state.
Proof.
  intros Hv. destruct (Hv (world s)) as (t & Hl & Hb).
  exists t. unfold deref. by rewrite Hl.
Qed.

Lemma apply_transition_success tr cur prev s t :
  deref E tr s = Ret t s →
  apply_transition E STATE_MACHINE_SUCCESS tr cur prev s =
    match result t with
    | RESULT_TRANSITION next_state _ =>
        Ret (next_state, cur)
          {| machine := set_current_state next_state (machine s);
             world := world s; calls := calls s |}
    | RESULT_NO_TRANSITION _ => Ret (cur, prev) s
    end.
Proof.
  intros Hd. unfold apply_transition. simpl.
  rewrite (bind_ret _ _ _ _ _ Hd). by destruct (result t).
Qed.

Lemma invoke_callback_returns event event_data l s t :
  deref E (l_transition l) s = Ret t s →
  ∃ s', invoke_callback E event event_data l s = Ret () s'.
Proof.
  intros Hd. unfold invoke_callback. rewrite (bind_ret _ _ _ _ _ Hd).
  destruct (result t) as [ns h|h]; unfold_monad; case_match; eauto.
Qed.

Lemma invoke_cleanup_returns l s p :
  l_transition l = Some p → ∃ r s', invoke_cleanup E l s = Ret r s'.
Proof.
  intros Hp. unfold invoke_cleanup. unfold_monad. rewrite Hp.
  destruct (SM_TRANSITION (machine s)) as [tbl|f c]; [eauto|].
  case_match; [|eauto]. destruct run_cleanup. eauto.
Qed.

(** A dispatch returns when it can take the lock, event and state are in
    range, and a successful resolution yields a pointer to a valid transition
    record. *)
Lemma event_returns event event_data flags s s0 sr ret tr :
  lock_take E flags s = Ret STATE_MACHINE_SUCCESS s0 →
  resolve E STATE_MACHINE_SUCCESS (SM_MAX_EVENT (machine s))
    (SM_CURRENT_STATE (machine s)) event (SM_DATA (machine s)) s0
    = Ret (ret, tr) sr →
  event < SM_MAX_EVENT (machine s) →
  SM_CURRENT_STATE (machine s) < SM_MAX_STATE (machine s) →
  (ret = STATE_MACHINE_SUCCESS →
   ∃ p, tr = Some p ∧ valid_transition E (SM_MAX_STATE (machine s)) p) →
  ∃ r s', state_machine_event E event event_data flags s = Ret r s'.
Proof.
  intros Hl Hr He Hc Hv.
  apply lock_take_inv in Hl as Hl'. destruct Hl' as (Hm0 & Hcons & _).
  apply resolve_inv in Hr as Hr'. destruct Hr' as (Hmr & _).
  destruct (decide (ret = STATE_MACHINE_SUCCESS)) as [->|Hne].
  - destruct Hv as (p & -> & Hv); [done|].
    destruct (deref_valid _ _ sr Hv) as (t & Hd & Hb).
    pose proof (apply_transition_success (Some p) (SM_CURRENT_STATE (machine s))
                  (SM_MAX_STATE (machine s)) sr t Hd) as Ha.
    set (cur' := match result t with
                 | RESULT_TRANSITION ns _ => ns
                 | RESULT_NO_TRANSITION _ => SM_CURRENT_STATE (machine s)
                 end).
    set (prev' := match result t with
                  | RESULT_TRANSITION _ _ => SM_CURRENT_STATE (machine s)
                  | RESULT_NO_TRANSITION _ => SM_MAX_STATE (machine s)
                  end).
    set (sa := {| machine := set_current_state cur' (machine sr);
                  world := world sr; calls := calls sr |}).
    assert (apply_transition E STATE_MACHINE_SUCCESS (Some p)
              (SM_CURRENT_STATE (machine s)) (SM_MAX_STATE (machine s)) sr
            = Ret (cur', prev') sa) as Ha'.
    { rewrite Ha. unfold sa, cur', prev'. destruct (result t); [done|].
      rewrite <- Hm0, <- Hmr. by rewrite set_current_state_id, St_eta. }
    assert (cur' < SM_MAX_STATE (machine s)) as Hcur'.
    { unfold cur'. destruct (result t) eqn:?; eauto. }
    destruct (lock_give_consistent sa) as (s1 & lg & Hg & Hmg & _).
    { simpl. by rewrite Hmr, Hm0. }
    set (l := {| l_ret := STATE_MACHINE_SUCCESS; l_transition := Some p;
                 l_current_state := cur'; l_previous_state := prev';
                 l_data := SM_DATA (machine s) |}).
    assert (critical_run E event flags s l s1) as Hrun.
    { exists s0, sr, sa. split_and!; done. }
    rewrite (event_resolved _ event_data _ _ _ _ Hrun eq_refl).
    destruct (deref_valid _ _ s1 Hv) as (t1 & Hd1 & _).
    destruct (invoke_callback_returns event event_data l s1 t1 Hd1) as (s2 & Hcb).
    rewrite (bind_ret _ _ _ _ _ Hcb).
    by apply (invoke_cleanup_returns l s2 p).
  - destruct (lock_give_consistent sr) as (s1 & lg & Hg & _).
    { by rewrite Hmr, Hm0. }
    exists ret, s1.
    apply (event_resolution_failed _ _ _ _
      {| l_ret := ret; l_transition := tr;
         l_current_state := SM_CURRENT_STATE (machine s);
         l_previous_state := SM_MAX_STATE (machine s);
         l_data := SM_DATA (machine s) |}); [|done].
    exists s0, sr, sr. simpl. split_and!; try done.
    + by apply apply_transition_failure.
    + by rewrite Hmr, Hm0.
Qed.

(** ** Cleanup *)

Lemma filter_cleanup_none (cs : list call) :
  Forall (λ c, is_call_cleanup c = false) cs → filter is_call_cleanup cs = [].
Proof.
  induction 1 as [|c cs Hc _ IH]; [done|].
  rewrite filter_cons_False; [done|]. intros Ht. by rewrite Hc in Ht.
Qed.

Lemma callbacks_not_cleanup cs :
  forallb is_call_callback cs = true →
  Forall (λ c, is_call_cleanup c = false) cs.
Proof.
  induction cs as [|c cs IH]; simpl; [by constructor|].
  intros [Hc Hl]%andb_prop. constructor; [by destruct c | auto].
Qed.

(** The calls of a critical section: lock primitives and at most the
    transition function. *)
Lemma critical_run_calls event flags s l s' :
  critical_run E event flags s l s' →
  ∃ cs, calls_since s s' cs
        ∧ Forall (λ c, is_call_callback c = false ∧ is_call_cleanup c = false) cs.
Proof.
  intros (s0 & sr & sa & Hl & _ & _ & Hr & Ha & _ & _ & Hg & _).
  apply lock_take_inv in Hl as (_ & _ & _ & c0 & Hc0 & Hf0).
  apply lock_give_inv in Hg as (_ & _ & cg & Hcg & Hfg).
  apply apply_transition_inv in Ha as (_ & Hca & _).
  apply resolve_inv in Hr as (_ & Hr).
  assert (∃ cr, calls_since s0 sr cr
                ∧ Forall (λ c, is_call_callback c = false
                               ∧ is_call_cleanup c = false) cr)
    as (cr & Hcr & Hfr).
  { destruct (SM_TRANSITION (machine s0)) as [tbl|f c].
    - destruct Hr as (_ & _ & ->). exists []. split; [apply calls_since_refl|done].
    - destruct Hr as (_ & Hr). eexists [_]. split; [done|]. by repeat constructor. }
  exists (c0 ++ cr ++ cg). split.
  - unfold calls_since in *. by rewrite Hcg, Hca, Hcr, Hc0, <- !app_assoc.
  - rewrite !Forall_app. split_and!; [|done|].
    + eapply Forall_impl; [by apply lock_calls_only|]. by intros ? (? & ? & ?).
    + eapply Forall_impl; [by apply lock_calls_only|]. by intros ? (? & ? & ?).
Qed.

(** C4, amended.  A returning dispatch on a table-strategy machine never
    invokes a cleanup function.  A returning dispatch on a Function-strategy
    machine with a non-NULL cleanup function, which acquired the lock and
    whose transition function returned [STATE_MACHINE_SUCCESS], invokes the
    cleanup function exactly once, whether the result is a [Transition] or a
    [NoTransition]. *)
Theorem cleanup_invoked_once event event_data flags s r s' cs :
  state_machine_event E event event_data flags s = Ret r s' →
  calls_since s s' cs →
  (∀ transition_table,
      SM_TRANSITION (machine s) = table transition_table →
      length (filter is_call_cleanup cs) = 0%nat)
  ∧ (∀ f c s0 tr w,
        SM_TRANSITION (machine s) = function f c →
        c ≠ NULL →
        lock_take E flags s = Ret STATE_MACHINE_SUCCESS s0 →
        run_transition_function E f (SM_CURRENT_STATE (machine s)) event
          (SM_DATA (machine s)) (world s0) = (STATE_MACHINE_SUCCESS, tr, w) →
        length (filter is_call_cleanup cs) = 1%nat).
Proof.
  intros Hev Hcs.
  apply event_ret_inv in Hev
    as [(Hl & Hne)|[(l & Hc & Hne & ->)|(l & s1 & s2 & Hc & Hret & Hb & Hk)]].
  - apply lock_take_inv in Hl as Hl'. destruct Hl' as (_ & _ & _ & c0 & Hc0 & Hf0).
    rewrite (calls_since_inj _ _ _ _ Hcs Hc0).
    assert (filter is_call_cleanup c0 = []) as ->.
    { apply filter_cleanup_none. eapply Forall_impl; [by apply lock_calls_only|].
      by intros ? (? & ? & ?). }
    split; [done|]. intros f c s0 tr w _ _ Hl' _. rewrite Hl in Hl'. by simplify_eq.
  - apply critical_run_calls in Hc as Hc'. destruct Hc' as (c1 & Hc1 & Hf1).
    rewrite (calls_since_inj _ _ _ _ Hcs Hc1).
    assert (filter is_call_cleanup c1 = []) as ->.
    { apply filter_cleanup_none. eapply Forall_impl; [done|]. by intros ? (? & ?). }
    split; [done|]. intros f c s0 tr w Hf _ Hl Hr. exfalso.
    destruct Hc as (s0' & sr & _ & Hl' & _ & _ & Hr' & _).
    rewrite Hl in Hl'. injection Hl' as <-.
    apply lock_take_inv in Hl as (Hm0 & _).
    rewrite (resolve_function _ _ _ _ _ _ f c STATE_MACHINE_SUCCESS tr w) in Hr';
      [| by rewrite Hm0 | done].
    by simplify_eq.
  - apply critical_run_calls in Hc as Hc'. destruct Hc' as (c1 & Hc1 & Hf1).
    apply critical_run_machine in Hc as Hm.
    apply invoke_callback_inv in Hb as (Hmb & _ & cb & Hcb & Hfb & _).
    apply invoke_cleanup_inv in Hk as (_ & Hk). rewrite Hmb, Hm in Hk. simpl in Hk.
    assert (filter is_call_cleanup (c1 ++ cb) = []) as Hnone.
    { apply filter_cleanup_none. rewrite Forall_app. split.
      - eapply Forall_impl; [done|]. by intros ? (? & ?).
      - by apply callbacks_not_cleanup. }
    split.
    + intros tbl Ht. rewrite Ht in Hk. destruct Hk as (_ & ->).
      rewrite (calls_since_inj _ _ _ _ Hcs (calls_since_trans _ _ _ _ _ Hc1 Hcb)).
      by rewrite Hnone.
    + intros f c s0 tr w Hf Hne _ _. rewrite Hf in Hk.
      apply N.eqb_neq in Hne. rewrite Hne in Hk. destruct Hk as (p & _ & _ & Hck).
      pose proof (calls_since_trans _ _ _ _ _
                    (calls_since_trans _ _ _ _ _ Hc1 Hcb) Hck) as Hall.
      rewrite (calls_since_inj _ _ _ _ Hcs Hall).
      by rewrite filter_app, Hnone.
Qed.

(** ** Machines without locking *)

(** C9, amended.  On a machine whose locking policy is absent the
    [STATE_MACHINE_NONBLOCK] flag has no effect: [lock_take] returns
    [STATE_MACHINE_SUCCESS] without calling the embedder,
    [state_machine_current_state] returns [STATE_MACHINE_SUCCESS] with the
    current state, and [state_machine_event] has the outcome it has for any
    other flags.  A nonzero status returned by [state_machine_event],
    [STATE_MACHINE_WOULD_BLOCK] included, is then the status returned by the
    transition function or by the cleanup function of a Function-strategy
    machine. *)
Theorem no_locking_ignores_nonblock event event_data state flags flags' s :
  locking_absent (SM_LOCK (machine s)) →
  lock_take E flags s = Ret STATE_MACHINE_SUCCESS s
  ∧ state_machine_current_state E state flags s
    = Ret (STATE_MACHINE_SUCCESS, SM_CURRENT_STATE (machine s)) s
  ∧ state_machine_event E event event_data flags s
    = state_machine_event E event event_data flags' s
  ∧ ∀ r s',
      state_machine_event E event event_data flags s = Ret r s' →
      r ≠ STATE_MACHINE_SUCCESS →
      ∃ f c,
        SM_TRANSITION (machine s) = function f c
        ∧ ((∃ tr w,
               run_transition_function E f (SM_CURRENT_STATE (machine s)) event
                 (SM_DATA (machine s)) (world s) = (r, tr, w))
           ∨ (c ≠ NULL
              ∧ ∃ p w w', run_cleanup E c (SM_DATA (machine s)) p w = (r, w'))).
Proof.
  intros Ha. split_and!.
  - by apply lock_take_unlocked.
  - unfold state_machine_current_state, mbind, M_bind.
    rewrite (lock_take_unlocked flags s Ha). simpl.
    by rewrite (lock_give_unlocked s Ha).
  - unfold state_machine_event, critical_section, mbind, M_bind.
    by rewrite !lock_take_unlocked.
  - intros r s' Hev Hr.
    apply event_ret_inv in Hev
      as [(Hl & Hne)|[(l & Hc & Hne & ->)|(l & s1 & s2 & Hc & Hret & Hb & Hk)]].
    + rewrite lock_take_unlocked in Hl by done. by simplify_eq.
    + destruct Hc as (s0 & sr & _ & Hl & _ & _ & Hres & _).
      rewrite lock_take_unlocked in Hl by done. injection Hl as <-.
      apply resolve_inv in Hres as (_ & Hres).
      destruct (SM_TRANSITION (machine s)) as [tbl|f c].
      * by destruct Hres as (? & _).
      * destruct Hres as (Hres & _). exists f, c. split; [done|]. left. eauto.
    + apply critical_run_machine in Hc as Hm.
      destruct Hc as (_ & _ & _ & _ & _ & _ & _ & _ & _ & _ & _ & Hd).
      apply invoke_callback_inv in Hb as (Hmb & _).
      apply invoke_cleanup_inv in Hk as (_ & Hk). rewrite Hmb, Hm in Hk.
      simpl in Hk.
      destruct (SM_TRANSITION (machine s)) as [tbl|f c].
      * destruct Hk as (-> & _). by rewrite Hret in Hr.
      * destruct (c =? NULL) eqn:Hc.
        -- destruct Hk as (-> & _). by rewrite Hret in Hr.
        -- destruct Hk as (p & _ & Hk & _). rewrite Hd in Hk.
           apply N.eqb_neq in Hc.
           exists f, c. split; [done|]. right. eauto 10.
Qed.

(** ** Faults of a dispatch *)

Lemma deref_fault_inv p s e : deref E p s = Fault e → e = invalid_read.
Proof.
  unfold deref. destruct p as [a|]; [|by intros [= <-]].
  destruct (load E (world s) a); [done|by intros [= <-]].
Qed.

Lemma apply_transition_fault_inv ret tr cur prev s e :
  apply_transition E ret tr cur prev s = Fault e → e = invalid_read.
Proof.
  unfold apply_transition. destruct (is_sm_success ret); [|done].
  intros [Hd|(t & s1 & Hd & Hk)]%bind_fault_inv.
  - by apply deref_fault_inv in Hd.
  - destruct (result t); by unfold_monad.
Qed.

Lemma invoke_callback_fault_inv event event_data l s e :
  invoke_callback E event event_data l s = Fault e → e = invalid_read.
Proof.
  unfold invoke_callback. intros [Hd|(t & s1 & Hd & Hk)]%bind_fault_inv.
  - by apply deref_fault_inv in Hd.
  - destruct (result t); unfold_monad; by case_match.
Qed.

Lemma invoke_cleanup_fault_inv l s e :
  invoke_cleanup E l s = Fault e → e = invalid_read.
Proof.
  unfold invoke_cleanup. unfold_monad.
  destruct (SM_TRANSITION (machine s)) as [tbl|f c]; [done|].
  case_match; [|done]. destruct (l_transition l); [|by intros [= <-]].
  by destruct run_cleanup.
Qed.

(** The assertions that can stop the critical section, and why.  Those of
    lines 165 and 275 never fail. *)
Lemma critical_section_fault_inv event flags s e :
  critical_section E event flags s = Fault e →
  (e = assertion_failed 141
   ∧ locking_definition_consistent (SM_LOCK (machine s)) = false)
  ∨ (e = assertion_failed 231 ∧ ¬ event < SM_MAX_EVENT (machine s))
  ∨ (e = assertion_failed 232
     ∧ ¬ SM_CURRENT_STATE (machine s) < SM_MAX_STATE (machine s))
  ∨ e = invalid_read
  ∨ (e = assertion_failed 274
     ∧ ∃ s0 sr p t next_state on_enter,
         lock_take E flags s = Ret STATE_MACHINE_SUCCESS s0
         ∧ resolve E STATE_MACHINE_SUCCESS (SM_MAX_EVENT (machine s))
             (SM_CURRENT_STATE (machine s)) event (SM_DATA (machine s)) s0
           = Ret (STATE_MACHINE_SUCCESS, Some p) sr
         ∧ load E (world sr) p = Some t
         ∧ result t = RESULT_TRANSITION next_state on_enter
         ∧ ¬ next_state < SM_MAX_STATE (machine s)).
Proof.
  unfold critical_section.
  intros [Hl|(r0 & s0 & Hl & Hk)]%bind_fault_inv.
  { apply lock_take_fault_inv in Hl. by left. }
  unfold is_sm_failure in Hk.
  destruct (N.eqb_spec r0 STATE_MACHINE_SUCCESS) as [->|Hne]; simpl in Hk;
    [|by unfold_monad].
  apply lock_take_inv in Hl as Hm. destruct Hm as (Hm & Hcons & _).
  apply bind_fault_inv in Hk as [Hk|(sm & s1 & [= <- <-] & Hk)]; [done|].
  rewrite Hm in Hk.
  apply bind_fault_inv in Hk
    as [[Hb ->]%assert_fault_inv|([] & s1 & [He ->]%assert_ret_inv & Hk)].
  { right; left. split; [done|]. by apply N.ltb_nlt. }
  apply bind_fault_inv in Hk
    as [[Hb ->]%assert_fault_inv|([] & s1 & [Hc ->]%assert_ret_inv & Hk)].
  { right; right; left. split; [done|]. by apply N.ltb_nlt. }
  apply bind_fault_inv in Hk as [Hk|([ret tr] & sr & Hr & Hk)].
  { by apply resolve_no_fault in Hk. }
  apply bind_fault_inv in Hk as [Hk|([cur prev] & sa & Ha & Hk)].
  { apply apply_transition_fault_inv in Hk. by do 3 right; left. }
  apply resolve_inv in Hr as Hr'. destruct Hr' as (Hmr & _).
  apply apply_transition_inv in Ha as (_ & _ & Hcase).
  apply bind_fault_inv in Hk
    as [[Hb ->]%assert_fault_inv|([] & s1 & [Hc' ->]%assert_ret_inv & Hk)].
  { apply N.ltb_nlt in Hb. apply N.ltb_lt in Hc.
    destruct Hcase as [(t & ns & h & -> & Hd & Hres & -> & _)|(_ & -> & _)];
      [|done].
    apply deref_inv in Hd as (_ & p & -> & Hload).
    do 4 right. split; [done|]. eauto 12. }
  apply bind_fault_inv in Hk as [Hk|(sm & s1 & [= <- <-] & Hk)]; [done|].
  apply bind_fault_inv in Hk
    as [[Hb ->]%assert_fault_inv|([] & s1 & [Hw ->]%assert_ret_inv & Hk)].
  { exfalso. apply N.eqb_neq in Hb. apply Hb.
    destruct Hcase as [(t & ns & h & _ & _ & _ & -> & _ & ->)|(_ & -> & _ & ->)];
      [done|by rewrite Hmr, Hm]. }
  apply bind_fault_inv in Hk as [Hk|([] & s1 & Hg & Hk)]; [|done].
  exfalso.
  assert (locking_definition_consistent (SM_LOCK (machine sa)) = true) as Hca.
  { destruct Hcase as [(t & ns & h & _ & _ & _ & _ & _ & ->)|(_ & _ & _ & ->)];
      simpl; by rewrite Hmr, Hm. }
  destruct (lock_give_consistent sa Hca) as (? & ? & Hg & _). by rewrite Hg in Hk.
Qed.

Lemma event_fault_inv event event_data flags s e :
  state_machine_event E event event_data flags s = Fault e →
  critical_section E event flags s = Fault e ∨ e = invalid_read.
Proof.
  unfold state_machine_event.
  intros [Hc|([r|l] & s1 & Hc & Hk)]%bind_fault_inv; [by left|done|].
  right. destruct (is_sm_failure (l_ret l)); [done|].
  apply bind_fault_inv in Hk as [Hk|([] & s2 & _ & Hk)].
  - by apply invoke_callback_fault_inv in Hk.
  - by apply invoke_cleanup_fault_inv in Hk.
Qed.

(** ** Initialisation *)

Lemma init_common_eq max_state max_event init_state lock using_table data s :
  state_machine_init_common (W:=W) max_state max_event init_state lock
    using_table data s =
  if negb (0 <? max_state) then Fault (assertion_failed 85)
  else if negb (0 <? max_event) then Fault (assertion_failed 86)
  else if negb (init_state <? max_state) then Fault (assertion_failed 87)
  else if negb (locking_definition_consistent (SM_LOCK (machine s)))
  then Fault (assertion_failed 88)
  else Ret ()
         {| machine :=
              {| SM_MAX_STATE := max_state; SM_MAX_EVENT := max_event;
                 SM_CURRENT_STATE := init_state; SM_LOCK := lock;
                 SM_TRANSITION :=
                   if using_table then table NULL else function NULL NULL;
                 SM_DATA := data |};
            world := world s; calls := calls s |}.
Proof.
  unfold state_machine_init_common. unfold_monad.
  destruct (0 <? max_state), (0 <? max_event), (init_state <? max_state),
    (locking_definition_consistent (SM_LOCK (machine s))); try done.
Qed.

Lemma init_table_inv max_state max_event init_state lock transition_table data
  s u s' :
  state_machine_init_table (W:=W) max_state max_event init_state lock
    transition_table data s = Ret u s' →
  init_state < max_state
  ∧ locking_definition_consistent (SM_LOCK (machine s)) = true
  ∧ machine s' =
      {| SM_MAX_STATE := max_state; SM_MAX_EVENT := max_event;
         SM_CURRENT_STATE := init_state; SM_LOCK := lock;
         SM_TRANSITION := table transition_table; SM_DATA := data |}.
Proof.
  unfold state_machine_init_table.
  intros ([] & s1 & [_ ->]%assert_ret_inv & Hk)%bind_ret_inv.
  apply bind_ret_inv in Hk as ([] & s1 & Hc & Hk).
  rewrite init_common_eq in Hc.
  destruct (0 <? max_state), (0 <? max_event),
    (N.ltb_spec init_state max_state),
    (locking_definition_consistent (SM_LOCK (machine s))); try done.
  unfold_monad. by simplify_eq/=.
Qed.

Lemma init_function_inv max_state max_event init_state lock transition cleanup
  data s u s' :
  state_machine_init_function (W:=W) max_state max_event init_state lock
    transition cleanup data s = Ret u s' →
  init_state < max_state
  ∧ locking_definition_consistent (SM_LOCK (machine s)) = true
  ∧ machine s' =
      {| SM_MAX_STATE := max_state; SM_MAX_EVENT := max_event;
         SM_CURRENT_STATE := init_state; SM_LOCK := lock;
         SM_TRANSITION := function transition cleanup; SM_DATA := data |}.
Proof.
  unfold state_machine_init_function.
  intros ([] & s1 & [_ ->]%assert_ret_inv & Hk)%bind_ret_inv.
  apply bind_ret_inv in Hk as ([] & s1 & Hc & Hk).
  rewrite init_common_eq in Hc.
  destruct (0 <? max_state), (0 <? max_event),
    (N.ltb_spec init_state max_state),
    (locking_definition_consistent (SM_LOCK (machine s))); try done.
  unfold_monad. by simplify_eq/=.
Qed.

(** The consistency assertion of the initialiser looks at the lock stored in
    [*sm] before the call, whatever [locking] is passed. *)
Lemma init_table_checks_previous_lock max_state max_event init_state locking
  transition_table data s :
  state_machine_init_table (W:=W) max_state max_event init_state locking
    transition_table data s = Fault (assertion_failed 88) →
  locking_definition_consistent (SM_LOCK (machine s)) = false.
Proof.
  unfold state_machine_init_table.
  intros [[_ [=]]%assert_fault_inv|([] & s1 & [_ ->]%assert_ret_inv & Hk)]
    %bind_fault_inv.
  apply bind_fault_inv in Hk as [Hk|([] & s1 & _ & Hk)]; [|by unfold_monad].
  rewrite init_common_eq in Hk.
  destruct (0 <? max_state), (0 <? max_event), (init_state <? max_state),
    (locking_definition_consistent (SM_LOCK (machine s))); by simplify_eq/=.
Qed.

(** ** The invariant [current_state < max_state] *)

Lemma current_state_machine state flags s r s' :
  state_machine_current_state E state flags s = Ret r s' →
  machine s' = machine s.
Proof.
  unfold state_machine_current_state.
  intros (r0 & s0 & Hl & Hk)%bind_ret_inv.
  apply lock_take_inv in Hl as (Hm & _).
  destruct (is_sm_failure r0); [unfold_monad; by simplify_eq|].
  apply bind_ret_inv in Hk as (sm & s1 & [= <- <-] & Hk).
  apply bind_ret_inv in Hk as ([] & s1 & Hg & Hk).
  apply lock_give_inv in Hg as (Hmg & _). unfold_monad. simplify_eq.
  by rewrite Hmg.
Qed.

Lemma event_invariant event event_data flags s r s' :
  machine_invariant (machine s) →
  state_machine_event E event event_data flags s = Ret r s' →
  machine_invariant (machine s').
Proof.
  unfold machine_invariant. intros Hinv Hev.
  assert (∀ l s1, critical_run E event flags s l s1 →
            SM_CURRENT_STATE (machine s1) < SM_MAX_STATE (machine s1)) as Hrun.
  { intros l s1 Hc. apply critical_run_machine in Hc as Hm. rewrite Hm. simpl.
    by destruct Hc as (_ & _ & _ & _ & _ & _ & _ & _ & ? & _). }
  apply event_ret_inv in Hev
    as [(Hl & _)|[(l & Hc & _)|(l & s1 & s2 & Hc & _ & Hb & Hk)]].
  - apply lock_take_inv in Hl as (-> & _). done.
  - eauto.
  - apply invoke_callback_inv in Hb as (Hb & _).
    apply invoke_cleanup_inv in Hk as (-> & _). rewrite Hb. eauto.
Qed.

Lemma api_step_invariant s s' :
  api_step E s s' →
  machine_invariant (machine s) →
  same_configuration (machine s) (machine s') ∧ machine_invariant (machine s').
Proof.
  intros [s1 event event_data flags r s2 _ Hev|s1 state flags r s2 Hcs] Hinv.
  - eauto using event_same_configuration, event_invariant.
  - apply current_state_machine in Hcs as ->. done.
Qed.

(** C2.  A machine built by [state_machine_init_table] or
    [state_machine_init_function] (which return only if
    [init_state < max_state]), whose strategy only produces [Transition]
    results with [next_state < max_state], satisfies
    [current_state < max_state] after initialisation and after every sequence
    of returning [state_machine_event] calls with [event < max_event] and
    [state_machine_current_state] calls.  On such a machine no dispatch with
    [event < max_event] fails one of the range assertions: the only assertion
    that can stop it is the locking consistency check of [lock_take]. *)
Theorem current_state_invariant
  (s_init s0 : St W) max_state max_event init_state locking
  transition_table transition cleanup data :
  state_machine_init_table max_state max_event init_state locking
    transition_table data s_init = Ret () s0
  ∨ state_machine_init_function max_state max_event init_state locking
      transition cleanup data s_init = Ret () s0 →
  strategy_bounded E (machine s0) →
  ∀ s, rtc (api_step E) s0 s →
    machine_invariant (machine s)
    ∧ ∀ event event_data flags line,
        event < SM_MAX_EVENT (machine s) →
        state_machine_event E event event_data flags s
          = Fault (assertion_failed line) →
        line = 141%nat.
Proof.
  intros Hinit Hb s Hreach.
  assert (machine_invariant (machine s0)) as Hinv0.
  { unfold machine_invariant.
    destruct Hinit as [(? & _ & ->)%init_table_inv|(? & _ & ->)%init_function_inv];
      done. }
  assert (same_configuration (machine s0) (machine s)
          ∧ machine_invariant (machine s)) as [Hcfg Hinv].
  { revert s Hreach. apply rtc_ind_r; [done|].
    intros s1 s2 _ Hstep [Hc1 Hi1].
    destruct (api_step_invariant _ _ Hstep Hi1) as [Hc2 Hi2].
    split; [by eapply same_configuration_trans|done]. }
  split; [done|].
  intros event event_data flags line He
    [Hf|[=]]%event_fault_inv.
  apply critical_section_fault_inv in Hf
    as [[[= ->] _]|[[_ Hf]|[[_ Hf]|[[=]|[_ Hf]]]]]; [done..|].
  exfalso.
  destruct Hf as (s1 & sr & p & t & ns & h & Hl & Hr & Hload & Hres & Hns).
  apply lock_take_inv in Hl as (Hm & _).
  destruct Hcfg as (E1 & E2 & E3 & E4 & E5).
  apply Hns. rewrite E1.
  apply (Hb s1 sr event STATE_MACHINE_SUCCESS p t ns h); try done.
  - by rewrite Hm.
  - rewrite Hm, <- E1. done.
  - by rewrite <- E2.
  - by rewrite Hm, <- E2, <- E5.
Qed.

End Properties.

(** C10.  In a Function-strategy dispatch whose transition function returns
    a nonzero status, nothing is read through the transition pointer: the
    dispatch returns that status whether or not the function stored a pointer
    ([tr] may be [None]), and its outcome is the same whatever memory of
    transition records the engine is given, even one in which no address can
    be read. *)
Theorem event_resolver_failure_reads_nothing {W} (E : Embedder W)
  event event_data flags (s s0 : St W) f c status tr w :
  SM_TRANSITION (machine s) = function f c →
  lock_take E flags s = Ret STATE_MACHINE_SUCCESS s0 →
  event < SM_MAX_EVENT (machine s) →
  SM_CURRENT_STATE (machine s) < SM_MAX_STATE (machine s) →
  run_transition_function E f (SM_CURRENT_STATE (machine s)) event
    (SM_DATA (machine s)) (world s0) = (status, tr, w) →
  status ≠ STATE_MACHINE_SUCCESS →
  ∃ s',
    state_machine_event E event event_data flags s = Ret status s'
    ∧ ∀ ld,
        state_machine_event (with_load ld E) event event_data flags s
          = Ret status s'.
Proof.
  intros Hf Hl He Hc Hr Hs.
  destruct (event_function_failure E
              event event_data flags s s0 f c status tr w)
    as (s' & cs & Hg & _ & Hev & _); [done..|].
  exists s'. split; [done|]. intros ld.
  destruct (event_function_failure (with_load ld E)
              event event_data flags s s0 f c status tr w)
    as (s'' & cs' & Hg' & _ & Hev' & _); [done..|].
  change (lock_give (with_load ld E)) with (lock_give E) in Hg'.
  rewrite Hg in Hg'. by injection Hg' as <-.
Qed.


(** * The engine on the machine of [example/simple.c] *)

Import Demo.

(** C3.  The initialisers do not reject a partial locking argument: their
    consistency assertion (line 88) is applied to [SM_LOCK(sm)], the lock
    field the storage [*sm] holds before the call, not to the argument.  On
    zero-filled storage both initialisers accept the partial configuration
    [take_only] and install it in the machine. *)
Theorem init_accepts_partial_locking :
  locking_partial take_only
  ∧ state_machine_init_table MAX_STATE MAX_EVENT STATE_0 take_only
      table_address NULL (start zeroed_machine idle)
    = Ret () (start (machine_of take_only (table table_address) STATE_0) idle)
  ∧ state_machine_init_function MAX_STATE MAX_EVENT STATE_0 take_only
      lookup_function cleanup_done NULL (start zeroed_machine idle)
    = Ret ()
        (start (machine_of take_only (function lookup_function cleanup_done)
                  STATE_0) idle).
Proof. split_and!; [|reflexivity..]. split; [by left|by right; left]. Qed.

(** The table of the example leads to states below [MAX_STATE] only. *)
Lemma table_strategy_bounded lock current_state :
  strategy_bounded embedder (machine_of lock (table table_address) current_state).
Proof.
  intros s sr event ret p t ns h (_ & _ & _ & Ht & _) Hcur Hev Hres _ Hload Hr.
  simpl in *.
  rewrite (resolve_table _ _ _ _ _ _ _ table_address Ht) in Hres.
  injection Hres as _ <- <-. unfold MAX_STATE, MAX_EVENT in *.
  assert (SM_CURRENT_STATE (machine s) = 0 ∨ SM_CURRENT_STATE (machine s) = 1
          ∨ SM_CURRENT_STATE (machine s) = 2) as Hc by lia.
  assert (event = 0 ∨ event = 1) as He by lia.
  destruct Hc as [Hc|[Hc|Hc]], He as [He|He]; rewrite Hc, He in Hload;
    vm_compute in Hload; simplify_eq/=; lia.
Qed.

(** C4 as stated fails: a Function-strategy machine with a cleanup function,
    whose transition function fails, returns without invoking cleanup. *)
Lemma cleanup_skipped_on_resolver_failure :
  ¬ (∀ (W : Type) (E : Embedder W) event event_data flags (s s' : St W)
       r cs f c,
        SM_TRANSITION (machine s) = function f c →
        c ≠ NULL →
        state_machine_event E event event_data flags s = Ret r s' →
        calls_since s s' cs →
        length (filter is_call_cleanup cs) = 1%nat).
Proof.
  intros H.
  specialize (H env embedder EVENT_INC NULL 0
    (start (function_machine failing_function cleanup_done STATE_0) idle)
    {| machine := function_machine failing_function cleanup_done STATE_0;
       world := idle;
       calls := [call_transition_function failing_function STATE_0
                   EVENT_INC NULL] |}
    7 [call_transition_function failing_function STATE_0 EVENT_INC NULL]
    failing_function cleanup_done eq_refl).
  by specialize (H ltac:(done) eq_refl eq_refl).
Qed.


(** C9 as stated fails: without locking, a dispatch still returns the value
    of [STATE_MACHINE_WOULD_BLOCK] when that is the status of the transition
    function. *)
Lemma no_locking_can_return_would_block :
  ¬ (∀ (W : Type) (E : Embedder W) event event_data flags (s s' : St W) r,
        locking_absent (SM_LOCK (machine s)) →
        state_machine_event E event event_data flags s = Ret r s' →
        r ≠ STATE_MACHINE_WOULD_BLOCK).
Proof.
  intros H.
  by apply (H env embedder EVENT_INC NULL STATE_MACHINE_NONBLOCK
    (start (function_machine busy_function NULL STATE_0) idle)
    {| machine := function_machine busy_function NULL STATE_0;
       world := idle;
       calls := [call_transition_function busy_function STATE_0
                   EVENT_INC NULL] |}
    STATE_MACHINE_WOULD_BLOCK).
Qed.

(** ** Instances of the properties *)

(** A nonblocking [EVENT_DEC] in [STATE_1] while the mutex is held elsewhere. *)
Lemma event_nonblock_would_block_witness :
  ∃ s',
    state_machine_event embedder EVENT_DEC NULL STATE_MACHINE_NONBLOCK
      (start (locked_table_machine STATE_1) contended)
      = Ret STATE_MACHINE_WOULD_BLOCK s'
    ∧ SM_CURRENT_STATE (machine s') = STATE_1
    ∧ machine s' = locked_table_machine STATE_1
    ∧ calls_since (start (locked_table_machine STATE_1) contended) s'
        [call_try_take mutex_try_take]
    ∧ ∀ cs, calls_since (start (locked_table_machine STATE_1) contended) s' cs →
        Forall (λ c, is_call_transition_function c = false
                     ∧ is_call_callback c = false
                     ∧ is_call_cleanup c = false) cs.
Proof.
  apply (event_nonblock_would_block embedder EVENT_DEC NULL
           STATE_MACHINE_NONBLOCK
           (start (locked_table_machine STATE_1) contended) contended).
  - by vm_compute.
  - by vm_compute.
  - reflexivity.
Defined.

(** A nonblocking read of the state while the mutex is held elsewhere; the
    caller's cell holds [99]. *)
Lemma current_state_result_witness :
  ∃ s',
    state_machine_current_state embedder 99 STATE_MACHINE_NONBLOCK
      (start (locked_table_machine STATE_1) contended)
    = Ret (if nonblocking_take_fails embedder STATE_MACHINE_NONBLOCK
                (start (locked_table_machine STATE_1) contended)
           then (STATE_MACHINE_WOULD_BLOCK, 99)
           else (STATE_MACHINE_SUCCESS, STATE_1)) s'
    ∧ machine s' = locked_table_machine STATE_1.
Proof.
  apply (current_state_result embedder 99 STATE_MACHINE_NONBLOCK
           (start (locked_table_machine STATE_1) contended)).
  reflexivity.
Defined.

(** [failing_function] returns [7] without storing a pointer, under the
    mutex. *)
Lemma event_propagates_resolver_failure_witness :
  ∃ s' cs,
    state_machine_event embedder EVENT_DEC NULL 0
      (start (locked_function_machine failing_function cleanup_done STATE_1)
         idle) = Ret 7 s'
    ∧ machine s' = locked_function_machine failing_function cleanup_done STATE_1
    ∧ calls_since
        (start (locked_function_machine failing_function cleanup_done STATE_1)
           idle) s' cs
    ∧ Forall (λ c, is_call_callback c = false ∧ is_call_cleanup c = false) cs.
Proof.
  apply (event_propagates_resolver_failure embedder EVENT_DEC NULL 0
           (start (locked_function_machine failing_function cleanup_done STATE_1)
              idle)
           {| machine :=
                locked_function_machine failing_function cleanup_done STATE_1;
              world := contended; calls := [call_take mutex_take] |}
           failing_function cleanup_done 7 None contended).
  - reflexivity.
  - reflexivity.
  - by vm_compute.
  - by vm_compute.
  - reflexivity.
  - by vm_compute.
Defined.

(** [failing_function] returns [7] without storing a pointer, on a machine
    without locking. *)
Lemma event_resolver_failure_reads_nothing_witness :
  ∃ s',
    state_machine_event embedder EVENT_INC NULL 0
      (start (function_machine failing_function cleanup_done STATE_0) idle)
    = Ret 7 s'
    ∧ ∀ ld,
        state_machine_event (with_load ld embedder) EVENT_INC NULL 0
          (start (function_machine failing_function cleanup_done STATE_0) idle)
        = Ret 7 s'.
Proof.
  apply (event_resolver_failure_reads_nothing embedder EVENT_INC NULL 0
           (start (function_machine failing_function cleanup_done STATE_0) idle)
           (start (function_machine failing_function cleanup_done STATE_0) idle)
           failing_function cleanup_done 7 None idle).
  - reflexivity.
  - reflexivity.
  - by vm_compute.
  - by vm_compute.
  - reflexivity.
  - by vm_compute.
Defined.

Lemma table_entries_valid current_state event :
  current_state < MAX_STATE → event < MAX_EVENT →
  valid_transition embedder MAX_STATE
    (table_address + (current_state * MAX_EVENT + event)).
Proof.
  unfold MAX_STATE, MAX_EVENT. intros Hc He w.
  assert (current_state = 0 ∨ current_state = 1 ∨ current_state = 2)
    as [->|[->| ->]] by lia;
  assert (event = 0 ∨ event = 1) as [->| ->] by lia;
    (eexists; split; [reflexivity|]); intros ns h [= <- _]; by vm_compute.
Qed.

(** [EVENT_DEC] in [STATE_1] with [lookup_function] and [cleanup_failing]:
    the calls end with the one call of the cleanup function. *)
Lemma cleanup_invoked_once_witness :
  (∀ transition_table,
      SM_TRANSITION
        (machine (start (locked_function_machine lookup_function cleanup_failing
                           STATE_1) idle)) = table transition_table →
      length (filter is_call_cleanup
                (calls (dec_entered lookup_function cleanup_failing) ++
                 [call_cleanup cleanup_failing NULL (table_address + 3)]))
      = 0%nat)
  ∧ (∀ f c s0 tr w,
        SM_TRANSITION
          (machine (start (locked_function_machine lookup_function
                             cleanup_failing STATE_1) idle)) = function f c →
        c ≠ NULL →
        lock_take embedder 0
          (start (locked_function_machine lookup_function cleanup_failing
                    STATE_1) idle) = Ret STATE_MACHINE_SUCCESS s0 →
        run_transition_function embedder f STATE_1 EVENT_DEC NULL (world s0)
          = (STATE_MACHINE_SUCCESS, tr, w) →
        length (filter is_call_cleanup
                  (calls (dec_entered lookup_function cleanup_failing) ++
                   [call_cleanup cleanup_failing NULL (table_address + 3)]))
        = 1%nat).
Proof.
  apply (cleanup_invoked_once embedder EVENT_DEC NULL 0
           (start (locked_function_machine lookup_function cleanup_failing
                     STATE_1) idle)
           9
           {| machine := locked_function_machine lookup_function
                           cleanup_failing STATE_0;
              world := {| held := false;
                          printed := [[EVENT_DEC; STATE_0; STATE_1]];
                          cleaned := 1 |};
              calls := calls (dec_entered lookup_function cleanup_failing) ++
                       [call_cleanup cleanup_failing NULL (table_address + 3)]
           |}).
  - reflexivity.
  - reflexivity.
Defined.

(** The table machine of the example, which has no locking. *)
Lemma no_locking_ignores_nonblock_witness :
  lock_take embedder STATE_MACHINE_NONBLOCK (start (table_machine STATE_0) idle)
    = Ret STATE_MACHINE_SUCCESS (start (table_machine STATE_0) idle)
  ∧ state_machine_current_state embedder 99 STATE_MACHINE_NONBLOCK
      (start (table_machine STATE_0) idle)
    = Ret (STATE_MACHINE_SUCCESS, STATE_0) (start (table_machine STATE_0) idle)
  ∧ state_machine_event embedder EVENT_INC NULL STATE_MACHINE_NONBLOCK
      (start (table_machine STATE_0) idle)
    = state_machine_event embedder EVENT_INC NULL 0
        (start (table_machine STATE_0) idle)
  ∧ ∀ r s',
      state_machine_event embedder EVENT_INC NULL STATE_MACHINE_NONBLOCK
        (start (table_machine STATE_0) idle) = Ret r s' →
      r ≠ STATE_MACHINE_SUCCESS →
      ∃ f c,
        SM_TRANSITION (table_machine STATE_0) = function f c
        ∧ ((∃ tr w,
               run_transition_function embedder f STATE_0 EVENT_INC NULL idle
               = (r, tr, w))
           ∨ (c ≠ NULL
              ∧ ∃ p w w', run_cleanup embedder c NULL p w = (r, w'))).
Proof.
  apply (no_locking_ignores_nonblock embedder EVENT_INC NULL 99
           STATE_MACHINE_NONBLOCK 0 (start (table_machine STATE_0) idle)).
  by vm_compute.
Defined.

(** The machine of the example after initialisation and one [EVENT_INC]. *)
Lemma current_state_invariant_witness :
  machine_invariant
    (machine {| machine := table_machine STATE_1;
                world := {| held := false;
                            printed := [[EVENT_INC; STATE_1; STATE_0]];
                            cleaned := 0 |};
                calls := [call_on_enter on_enter EVENT_INC STATE_1 STATE_0
                            NULL NULL] |})
  ∧ ∀ event event_data flags line,
      event < MAX_EVENT →
      state_machine_event embedder event event_data flags
        {| machine := table_machine STATE_1;
           world := {| held := false;
                       printed := [[EVENT_INC; STATE_1; STATE_0]];
                       cleaned := 0 |};
           calls := [call_on_enter on_enter EVENT_INC STATE_1 STATE_0
                       NULL NULL] |}
      = Fault (assertion_failed line) →
      line = 141%nat.
Proof.
  apply (current_state_invariant embedder
           (start zeroed_machine idle) (start (table_machine STATE_0) idle)
           MAX_STATE MAX_EVENT STATE_0 STATE_MACHINE_NO_LOCKING
           table_address NULL NULL NULL).
  - left. reflexivity.
  - apply table_strategy_bounded.
  - apply rtc_once.
    apply (step_event embedder (start (table_machine STATE_0) idle)
             EVENT_INC NULL 0 STATE_MACHINE_SUCCESS).
    + by vm_compute.
    + reflexivity.
Defined.

(** ** The run of [main]

    From [STATE_0]: two [EVENT_INC] lead to [STATE_2], a third one is
    undefined; two [EVENT_DEC] lead back to [STATE_0], a third one is
    undefined.  Each printed line is the argument list of the callback. *)
Example main_run :
  send_all [EVENT_INC; EVENT_INC; EVENT_INC; EVENT_DEC; EVENT_DEC; EVENT_DEC]
    (start (table_machine STATE_0) idle)
  = Ret ()
      {| machine := table_machine STATE_0;
         world :=
           {| held := false;
              printed := [[EVENT_INC; STATE_1; STATE_0];
                          [EVENT_INC; STATE_2; STATE_1];
                          [EVENT_INC; STATE_2];
                          [EVENT_DEC; STATE_1; STATE_2];
                          [EVENT_DEC; STATE_0; STATE_1];
                          [EVENT_DEC; STATE_0]];
              cleaned := 0 |};
         calls :=
           [call_on_enter on_enter EVENT_INC STATE_1 STATE_0 NULL NULL;
            call_on_enter on_enter EVENT_INC STATE_2 STATE_1 NULL NULL;
            call_on_undefined_transition on_undefined EVENT_INC STATE_2 NULL NULL;
            call_on_enter on_enter EVENT_DEC STATE_1 STATE_2 NULL NULL;
            call_on_enter on_enter EVENT_DEC STATE_0 STATE_1 NULL NULL;
            call_on_undefined_transition on_undefined EVENT_DEC STATE_0 NULL NULL]
      |}.
Proof. reflexivity. Qed.

(** On the table of the example every dispatch in range returns. *)
Lemma table_machine_event_returns current_state event event_data flags w cs :
  current_state < MAX_STATE → event < MAX_EVENT →
  ∃ r s',
    state_machine_event embedder event event_data flags
      {| machine := table_machine current_state; world := w; calls := cs |}
    = Ret r s'.
Proof.
  intros Hc He.
  eapply (event_returns embedder event event_data flags _ _ _
            STATE_MACHINE_SUCCESS
            (Some (table_address + (current_state * MAX_EVENT + event)))).
  - by apply lock_take_unlocked.
  - by apply resolve_table.
  - done.
  - done.
  - intros _. eexists. split; [done|]. by apply table_entries_valid.
Qed.

(** * Further properties of the engine *)

Section Coverage.

Context {W : Type} (E : Embedder W).

Implicit Types (s : St W) (flags event : uint32) (event_data : pointer).

Ltac unfold_steps :=
  unfold ASSERT_LOCKING_DEFINITION_CONSISTENCY, ASSERT_NOT_NULL, assert,
    extern, modify_sm, get_sm, mbind, M_bind, mret, M_ret in *.

(** ** Initialisation *)

(** X1.  [state_machine_init_table] returns exactly when the table pointer
    is not NULL, [max_state] and [max_event] are positive,
    [init_state < max_state] and the lock field found in [*sm] is consistent;
    the machine it leaves is made of its arguments alone, whatever [*sm] held
    before, and nothing of the embedder is touched.
    [state_machine_init_function] is the same with the transition function in
    place of the table; its cleanup function may be NULL. *)
Theorem init_returns_iff
  max_state max_event init_state locking transition_table transition cleanup
  data s s' :
  (state_machine_init_table max_state max_event init_state locking
     transition_table data s = Ret () s'
   ↔ transition_table ≠ NULL ∧ 0 < max_state ∧ 0 < max_event
     ∧ init_state < max_state
     ∧ locking_definition_consistent (SM_LOCK (machine s)) = true
     ∧ s' = {| machine :=
                 {| SM_MAX_STATE := max_state; SM_MAX_EVENT := max_event;
                    SM_CURRENT_STATE := init_state; SM_LOCK := locking;
                    SM_TRANSITION := table transition_table;
                    SM_DATA := data |};
               world := world s; calls := calls s |})
  ∧ (state_machine_init_function max_state max_event init_state locking
       transition cleanup data s = Ret () s'
     ↔ transition ≠ NULL ∧ 0 < max_state ∧ 0 < max_event
       ∧ init_state < max_state
       ∧ locking_definition_consistent (SM_LOCK (machine s)) = true
       ∧ s' = {| machine :=
                   {| SM_MAX_STATE := max_state; SM_MAX_EVENT := max_event;
                      SM_CURRENT_STATE := init_state; SM_LOCK := locking;
                      SM_TRANSITION := function transition cleanup;
                      SM_DATA := data |};
                 world := world s; calls := calls s |}).
Proof.
  split.
  - unfold state_machine_init_table, mbind, M_bind, ASSERT_NOT_NULL, assert.
    destruct (N.eqb_spec transition_table NULL); simpl; [by split; [|intros (? & _)]|].
    rewrite init_common_eq.
    destruct (N.ltb_spec 0 max_state), (N.ltb_spec 0 max_event),
      (N.ltb_spec init_state max_state),
      (locking_definition_consistent (SM_LOCK (machine s))); simpl;
      (split; [try done; intros [= <-]; split_and!; try done; lia
              |intros (? & ? & ? & ? & ? & ->); try done; try lia]).
  - unfold state_machine_init_function, mbind, M_bind, ASSERT_NOT_NULL, assert.
    destruct (N.eqb_spec transition NULL); simpl; [by split; [|intros (? & _)]|].
    rewrite init_common_eq.
    destruct (N.ltb_spec 0 max_state), (N.ltb_spec 0 max_event),
      (N.ltb_spec init_state max_state),
      (locking_definition_consistent (SM_LOCK (machine s))); simpl;
      (split; [try done; intros [= <-]; split_and!; try done; lia
              |intros (? & ? & ? & ? & ? & ->); try done; try lia]).
Qed.

(** X2.  When the storage [*sm] holds a partial lock definition, both
    initialisers stop at the assertion of line 88 although their own
    arguments are in order, and whatever locking argument they are given. *)
Theorem init_aborts_on_partial_lock_in_storage
  max_state max_event init_state locking transition_table transition cleanup
  data s :
  locking_partial (SM_LOCK (machine s)) →
  0 < max_state → 0 < max_event → init_state < max_state →
  (transition_table ≠ NULL →
   state_machine_init_table max_state max_event init_state locking
     transition_table data s = Fault (assertion_failed 88))
  ∧ (transition ≠ NULL →
     state_machine_init_function max_state max_event init_state locking
       transition cleanup data s = Fault (assertion_failed 88)).
Proof.
  intros Hp%locking_partial_inconsistent Hs%N.ltb_lt He%N.ltb_lt Hi%N.ltb_lt.
  split; intros Hn%N.eqb_neq.
  - unfold state_machine_init_table, mbind, M_bind, ASSERT_NOT_NULL, assert.
    rewrite Hn. simpl. by rewrite init_common_eq, Hs, He, Hi, Hp.
  - unfold state_machine_init_function, mbind, M_bind, ASSERT_NOT_NULL, assert.
    rewrite Hn. simpl. by rewrite init_common_eq, Hs, He, Hi, Hp.
Qed.

(** ** Flags *)

(** X3.  Of [flags] only the bit [STATE_MACHINE_NONBLOCK] is looked at: both
    interface functions behave as with all other bits cleared. *)
Theorem flags_only_nonblock_bit event event_data state flags s :
  state_machine_event E event event_data flags s
  = state_machine_event E event event_data
      (N.land flags STATE_MACHINE_NONBLOCK) s
  ∧ state_machine_current_state E state flags s
    = state_machine_current_state E state
        (N.land flags STATE_MACHINE_NONBLOCK) s.
Proof.
  assert (lock_take E flags s
          = lock_take E (N.land flags STATE_MACHINE_NONBLOCK) s) as Hl.
  { unfold lock_take. by rewrite <- N.land_assoc, N.land_diag. }
  split.
  - unfold state_machine_event, critical_section, mbind, M_bind. by rewrite Hl.
  - unfold state_machine_current_state, mbind, M_bind. by rewrite Hl.
Qed.

(** ** Preconditions checked inside the critical section *)

Lemma event_critical_fault event event_data flags s e :
  critical_section E event flags s = Fault e →
  state_machine_event E event event_data flags s = Fault e.
Proof. intros H. unfold state_machine_event. by apply bind_fault. Qed.

(** X4.  Once the lock is taken, an event that is not below [max_event] stops
    the dispatch at the assertion of line 231, and a [current_state] that is
    not below [max_state] stops it at line 232. *)
Theorem dispatch_range_assertions event event_data flags s s0 :
  lock_take E flags s = Ret STATE_MACHINE_SUCCESS s0 →
  (¬ event < SM_MAX_EVENT (machine s) →
   state_machine_event E event event_data flags s
   = Fault (assertion_failed 231))
  ∧ (event < SM_MAX_EVENT (machine s) →
     ¬ SM_CURRENT_STATE (machine s) < SM_MAX_STATE (machine s) →
     state_machine_event E event event_data flags s
     = Fault (assertion_failed 232)).
Proof.
  intros Hl. apply lock_take_inv in Hl as Hm. destruct Hm as (Hm & _).
  split.
  - intros He%N.ltb_nlt. apply event_critical_fault.
    unfold critical_section, mbind, M_bind. rewrite Hl. simpl.
    unfold get_sm, assert. by rewrite Hm, He.
  - intros He%N.ltb_lt Hc%N.ltb_nlt. apply event_critical_fault.
    unfold critical_section, mbind, M_bind. rewrite Hl. simpl.
    unfold get_sm, assert. by rewrite Hm, He, Hc.
Qed.

(** X5.  A resolved [Transition] whose [next_state] is not below [max_state]
    stops the dispatch at the assertion of line 274, for either strategy. *)
Theorem dispatch_next_state_out_of_range
  event event_data flags s s0 sr p t next_state on_enter :
  lock_take E flags s = Ret STATE_MACHINE_SUCCESS s0 →
  event < SM_MAX_EVENT (machine s) →
  SM_CURRENT_STATE (machine s) < SM_MAX_STATE (machine s) →
  resolve E STATE_MACHINE_SUCCESS (SM_MAX_EVENT (machine s))
    (SM_CURRENT_STATE (machine s)) event (SM_DATA (machine s)) s0
    = Ret (STATE_MACHINE_SUCCESS, Some p) sr →
  load E (world sr) p = Some t →
  result t = RESULT_TRANSITION next_state on_enter →
  ¬ next_state < SM_MAX_STATE (machine s) →
  state_machine_event E event event_data flags s
  = Fault (assertion_failed 274).
Proof.
  intros Hl He%N.ltb_lt Hc%N.ltb_lt Hr Hload Hres Hn%N.ltb_nlt.
  apply lock_take_inv in Hl as Hm. destruct Hm as (Hm & _).
  apply event_critical_fault.
  unfold critical_section, mbind, M_bind. rewrite Hl. simpl.
  unfold get_sm, assert. rewrite Hm, He, Hc, Hr.
  unfold apply_transition, deref, mbind, M_bind. simpl.
  rewrite Hload, Hres. simpl. by rewrite Hn.
Qed.

(** X6.  The engine relies on a transition function that returns
    [STATE_MACHINE_SUCCESS] having stored a readable pointer: if it stored
    none, or one that addresses no transition record, the dispatch reads
    through an invalid pointer at line 267. *)
Theorem dispatch_success_without_record
  event event_data flags s s0 f c tr w :
  SM_TRANSITION (machine s) = function f c →
  lock_take E flags s = Ret STATE_MACHINE_SUCCESS s0 →
  event < SM_MAX_EVENT (machine s) →
  SM_CURRENT_STATE (machine s) < SM_MAX_STATE (machine s) →
  run_transition_function E f (SM_CURRENT_STATE (machine s)) event
    (SM_DATA (machine s)) (world s0) = (STATE_MACHINE_SUCCESS, tr, w) →
  tr = None ∨ (∃ p, tr = Some p ∧ load E w p = None) →
  state_machine_event E event event_data flags s = Fault invalid_read.
Proof.
  intros Hf Hl He%N.ltb_lt Hc%N.ltb_lt Hr Htr.
  apply lock_take_inv in Hl as Hm. destruct Hm as (Hm & _).
  apply event_critical_fault.
  unfold critical_section, mbind, M_bind. rewrite Hl. simpl.
  unfold get_sm, assert. rewrite Hm, He, Hc.
  rewrite (resolve_function E _ _ _ _ _ _ f c STATE_MACHINE_SUCCESS tr w);
    [|by rewrite Hm|done].
  unfold apply_transition, deref, mbind, M_bind. simpl.
  destruct Htr as [->|(p & -> & Hload)]; [done|]. by rewrite Hload.
Qed.

(** ** The calls of a dispatch, in order *)

Lemma lock_take_calls flags s s0 :
  lock_take E flags s = Ret STATE_MACHINE_SUCCESS s0 →
  calls_since s s0 (acquire_calls flags (machine s)).
Proof.
  intros Hl. apply lock_take_inv in Hl as Hc. destruct Hc as (_ & Hc & _).
  unfold acquire_calls.
  apply locking_consistent_cases in Hc as [Ha|He].
  - rewrite lock_take_unlocked in Hl by done. injection Hl as <-.
    rewrite (use_locking_absent _ Ha). apply calls_since_refl.
  - rewrite (use_locking_enabled _ He).
    destruct (N.eqb_spec (N.land flags STATE_MACHINE_NONBLOCK) 0) as [Hf|Hf].
    + rewrite lock_take_blocking in Hl by done. by injection Hl as <-.
    + destruct (run_try_take E (try_take (SM_LOCK (machine s))) (machine s)
                  (world s)) as [taken w] eqn:Hr.
      rewrite (lock_take_nonblocking E _ _ _ _ He Hf Hr) in Hl.
      by injection Hl as _ <-.
Qed.

Lemma lock_give_calls s u s' :
  lock_give E s = Ret u s' → calls_since s s' (give_calls (machine s)).
Proof.
  intros Hg. apply lock_give_inv in Hg as Hc. destruct Hc as (_ & Hc & _).
  unfold give_calls.
  apply locking_consistent_cases in Hc as [Ha|He].
  - rewrite lock_give_unlocked in Hg by done. simplify_eq.
    rewrite (use_locking_absent _ Ha). apply calls_since_refl.
  - rewrite lock_give_locked in Hg by done. simplify_eq.
    by rewrite (use_locking_enabled _ He).
Qed.

Lemma critical_run_call_list event flags s l s1 :
  critical_run E event flags s l s1 →
  calls_since s s1
    (acquire_calls flags (machine s) ++ resolve_calls (machine s) event
     ++ give_calls (machine s)).
Proof.
  intros Hrun. apply critical_run_machine in Hrun as Hm1.
  destruct Hrun as (s0 & sr & sa & Hl & _ & _ & Hr & Ha & _ & _ & Hg & _).
  apply lock_take_calls in Hl as Hc0. apply lock_take_inv in Hl as (Hm0 & _).
  apply lock_give_calls in Hg as Hcg. apply lock_give_inv in Hg as (Hmg & _).
  apply apply_transition_inv in Ha as (_ & Hca & _).
  apply resolve_inv in Hr as (_ & Hr). rewrite Hm0 in Hr.
  assert (calls_since s0 sr (resolve_calls (machine s) event)) as Hcr.
  { unfold resolve_calls. destruct (SM_TRANSITION (machine s)) as [tbl|f c].
    - destruct Hr as (_ & _ & ->). apply calls_since_refl.
    - by destruct Hr as (_ & Hr). }
  assert (give_calls (machine sa) = give_calls (machine s)) as Hgc.
  { rewrite <- Hmg, Hm1. done. }
  rewrite Hgc in Hcg. unfold calls_since in *.
  by rewrite Hcg, Hca, Hcr, Hc0, <- !app_assoc.
Qed.

Lemma invoke_callback_calls event event_data l s u s' :
  invoke_callback E event event_data l s = Ret u s' →
  ∃ cb,
    calls_since s s' cb
    ∧ (cb = []
       ∨ (∃ h, cb = [call_on_enter h event (l_current_state l)
                       (l_previous_state l) event_data (l_data l)])
       ∨ (∃ h, cb = [call_on_undefined_transition h event (l_current_state l)
                       event_data (l_data l)])).
Proof.
  unfold invoke_callback. intros (t & s1 & Hd & Hk)%bind_ret_inv.
  apply deref_inv in Hd as (-> & _).
  destruct (result t) as [ns h|h]; unfold_steps; case_match; simplify_eq/=;
    first [ by exists []; split; [apply calls_since_refl|left]
          | eexists [_]; split; [reflexivity|]; right; eauto ].
Qed.

(** A returning dispatch that took the lock, in its phases. *)
Lemma event_run_inv event event_data flags s s0 r s' :
  lock_take E flags s = Ret STATE_MACHINE_SUCCESS s0 →
  state_machine_event E event event_data flags s = Ret r s' →
  ∃ l s1 cb cl,
    critical_run E event flags s l s1
    ∧ machine s' = machine s1
    ∧ calls_since s1 s' (cb ++ cl)
    ∧ (cb = []
       ∨ (∃ h, cb = [call_on_enter h event (l_current_state l)
                       (l_previous_state l) event_data (l_data l)])
       ∨ (∃ h, cb = [call_on_undefined_transition h event (l_current_state l)
                       event_data (l_data l)]))
    ∧ (cl = [] ∨ ∃ c p, cl = [call_cleanup c (l_data l) p]).
Proof.
  intros Hl
    [(Hl' & Hne)|[(l & Hc & _)|(l & s1 & s2 & Hc & _ & Hb & Hk)]]%event_ret_inv.
  - rewrite Hl in Hl'. by simplify_eq.
  - exists l, s', [], []. split_and!; auto using calls_since_refl.
  - apply invoke_callback_inv in Hb as Hb'. destruct Hb' as (Hmb & _).
    apply invoke_callback_calls in Hb as (cb & Hcb & Hshape).
    apply invoke_cleanup_inv in Hk as (Hmk & Hk).
    assert (∃ cl, calls_since s2 s' cl
                  ∧ (cl = [] ∨ ∃ c p, cl = [call_cleanup c (l_data l) p]))
      as (cl & Hcl & Hclshape).
    { destruct (SM_TRANSITION (machine s2)) as [tbl|f c].
      - destruct Hk as (_ & ->). exists []. eauto using calls_since_refl.
      - destruct (c =? NULL).
        + destruct Hk as (_ & ->). exists []. eauto using calls_since_refl.
        + destruct Hk as (p & _ & _ & Hk). eauto 10. }
    exists l, s1, cb, cl. split_and!; try done.
    + by rewrite Hmk, Hmb.
    + by eapply calls_since_trans.
Qed.

(** X8.  The calls of a returning dispatch that took the lock come in this
    order: the acquisition ([take], or [try_take] when
    [STATE_MACHINE_NONBLOCK] is set; none without locking), the transition
    function of a Function-strategy machine, called once with the current
    state, the event and [data], then the one [give] matching the
    acquisition, then at most one callback, then at most one cleanup.  The
    transition function runs inside the critical section, callback and
    cleanup after it. *)
Theorem dispatch_call_order event event_data flags s s0 r s' :
  lock_take E flags s = Ret STATE_MACHINE_SUCCESS s0 →
  state_machine_event E event event_data flags s = Ret r s' →
  ∃ cb cl,
    calls_since s s'
      (acquire_calls flags (machine s) ++ resolve_calls (machine s) event
       ++ give_calls (machine s) ++ cb ++ cl)
    ∧ forallb is_call_callback cb = true ∧ (length cb ≤ 1)%nat
    ∧ forallb is_call_cleanup cl = true ∧ (length cl ≤ 1)%nat.
Proof.
  intros Hl Hev.
  destruct (event_run_inv _ _ _ _ _ _ _ Hl Hev)
    as (l & s1 & cb & cl & Hrun & _ & Hpost & Hcb & Hcl).
  apply critical_run_call_list in Hrun.
  exists cb, cl. split_and!.
  - pose proof (calls_since_trans _ _ _ _ _ Hrun Hpost) as Hall.
    by rewrite <- !app_assoc in Hall.
  - by destruct Hcb as [->|[(h & ->)|(h & ->)]].
  - destruct Hcb as [->|[(h & ->)|(h & ->)]]; simpl; lia.
  - by destruct Hcl as [->|(c & p & ->)].
  - destruct Hcl as [->|(c & p & ->)]; simpl; lia.
Qed.

(** ** Reading the state *)

Lemma current_state_value state flags s r v s' :
  state_machine_current_state E state flags s = Ret (r, v) s' →
  machine s' = machine s
  ∧ (r = STATE_MACHINE_SUCCESS → v = SM_CURRENT_STATE (machine s))
  ∧ (r ≠ STATE_MACHINE_SUCCESS → v = state).
Proof.
  unfold state_machine_current_state.
  intros (r0 & s0 & Hl & Hk)%bind_ret_inv.
  apply lock_take_inv in Hl as (Hm & _). unfold is_sm_failure in Hk.
  destruct (N.eqb_spec r0 STATE_MACHINE_SUCCESS) as [->|Hne]; simpl in Hk.
  - apply bind_ret_inv in Hk as (sm & s1 & [= <- <-] & Hk).
    apply bind_ret_inv in Hk as ([] & s1 & Hg & Hk).
    apply lock_give_inv in Hg as (Hmg & _). unfold_steps. simplify_eq.
    by rewrite Hmg, Hm.
  - unfold_steps. by simplify_eq.
Qed.

(** X10.  Two successful reads of the state with no dispatch in between
    deliver the same value, and leave the machine as it was. *)
Theorem current_state_idempotent state1 state2 flags1 flags2 s s1 s2 v1 v2 :
  state_machine_current_state E state1 flags1 s
    = Ret (STATE_MACHINE_SUCCESS, v1) s1 →
  state_machine_current_state E state2 flags2 s1
    = Ret (STATE_MACHINE_SUCCESS, v2) s2 →
  v1 = v2 ∧ v1 = SM_CURRENT_STATE (machine s) ∧ machine s2 = machine s.
Proof.
  intros (Hm1 & Hv1 & _)%current_state_value (Hm2 & Hv2 & _)%current_state_value.
  rewrite Hv1, Hv2, Hm2, Hm1 by done. done.
Qed.

(** ** Return values *)

Lemma lock_take_would_block flags s r s' :
  lock_take E flags s = Ret r s' → r ≠ STATE_MACHINE_SUCCESS →
  r = STATE_MACHINE_WOULD_BLOCK ∧ nonblocking_take_fails E flags s = true.
Proof.
  intros Hl Hne. apply lock_take_inv in Hl as Hc. destruct Hc as (_ & Hc & _).
  unfold nonblocking_take_fails.
  apply locking_consistent_cases in Hc as [Ha|He].
  - rewrite lock_take_unlocked in Hl by done. by simplify_eq.
  - rewrite (use_locking_enabled _ He).
    destruct (N.eqb_spec (N.land flags STATE_MACHINE_NONBLOCK) 0) as [Hf|Hf].
    + rewrite lock_take_blocking in Hl by done. by simplify_eq.
    + destruct (run_try_take E (try_take (SM_LOCK (machine s))) (machine s)
                  (world s)) as [taken w] eqn:Hr.
      rewrite (lock_take_nonblocking E _ _ _ _ He Hf Hr) in Hl.
      destruct taken; by simplify_eq.
Qed.

(** X11.  A dispatch on a table-strategy machine returns
    [STATE_MACHINE_SUCCESS] or [STATE_MACHINE_WOULD_BLOCK] and nothing else,
    the latter only when the nonblocking acquisition failed. *)
Theorem table_dispatch_status event event_data flags s transition_table r s' :
  SM_TRANSITION (machine s) = table transition_table →
  state_machine_event E event event_data flags s = Ret r s' →
  r = STATE_MACHINE_SUCCESS
  ∨ (r = STATE_MACHINE_WOULD_BLOCK ∧ nonblocking_take_fails E flags s = true).
Proof.
  intros Ht
    [(Hl & Hne)|[(l & Hc & Hne & ->)|(l & s1 & s2 & Hc & Hret & Hb & Hk)]]
    %event_ret_inv.
  - right. by eapply lock_take_would_block.
  - exfalso. destruct Hc as (s0 & sr & _ & Hl & _ & _ & Hr & _).
    apply lock_take_inv in Hl as (Hm & _).
    rewrite (resolve_table E _ _ _ _ _ _ transition_table) in Hr
      by by rewrite Hm.
    by simplify_eq.
  - left. apply critical_run_machine in Hc as Hm.
    apply invoke_callback_inv in Hb as (Hmb & _).
    rewrite (invoke_cleanup_table E _ _ transition_table) in Hk
      by by rewrite Hmb, Hm.
    by simplify_eq.
Qed.

(** ** What the interface never changes *)

(** X12.  Whatever sequence of returning [state_machine_event] and
    [state_machine_current_state] calls is made, [max_state], [max_event],
    the lock definition, the transition strategy and [data] of the machine
    stay as they were: only [current_state] is ever written. *)
Theorem api_preserves_configuration s0 s :
  rtc (api_step E) s0 s → same_configuration (machine s0) (machine s).
Proof.
  revert s. apply rtc_ind_r; [done|].
  intros s1 s2 _ Hstep Hc. eapply same_configuration_trans; [done|].
  destruct Hstep as [s3 event event_data flags r s4 _ Hev|s3 state flags r s4 Hcs].
  - by eapply event_same_configuration.
  - apply current_state_machine in Hcs as ->. done.
Qed.

End Coverage.

(** * Dispatch with callbacks that use the interface again *)

Section ChainedProperties.

Context {W : Type} (E : Embedder W) (H : Handlers W).

Implicit Types (s : St W) (flags event : uint32) (event_data : pointer).

(** With handlers that act on the world alone the chained dispatch is
    [state_machine_event]. *)
Lemma chained_plain event event_data flags s :
  Chained.state_machine_event E (plain_handlers E) event event_data flags s
  = state_machine_event E event event_data flags s.
Proof.
  unfold Chained.state_machine_event, state_machine_event, mbind, M_bind.
  destruct (critical_section E event flags s) as [[r|l] s1|e]; [done| |done].
  destruct (is_sm_failure (l_ret l)); [done|].
  unfold Chained.invoke_callback, invoke_callback, Chained.log_call, extern,
    deref, mbind, M_bind.
  destruct (l_transition l) as [p|]; [|done].
  destruct (load E (world s1) p) as [t|]; [|done].
  assert (∀ s2, Chained.invoke_cleanup (plain_handlers E) l s2
                = invoke_cleanup E l s2) as Hc.
  { intros s2. unfold Chained.invoke_cleanup, invoke_cleanup, Chained.log_call,
      extern, get_sm, mbind, M_bind.
    destruct (SM_TRANSITION (machine s2)) as [tbl|f c]; [done|].
    destruct (negb (c =? NULL)); [|done]. destruct (l_transition l); [|done].
    simpl. by destruct run_cleanup. }
  destruct (result t) as [ns h|h]; destruct (negb (h =? NULL)); simpl;
    apply Hc.
Qed.

(** Handlers that act on the world alone leave the machine alone. *)
Lemma plain_handlers_leave_machine : leave_machine (plain_handlers E).
Proof.
  split_and!; intros; intros s a s'; simpl.
  - by intros [= _ <-].
  - by intros [= _ <-].
  - destruct run_cleanup. by intros [= _ <-].
Qed.

Lemma chained_event_ret_inv event event_data flags s r s' :
  Chained.state_machine_event E H event event_data flags s = Ret r s' →
  (lock_take E flags s = Ret r s' ∧ r ≠ STATE_MACHINE_SUCCESS)
  ∨ (∃ l, critical_run E event flags s l s' ∧ l_ret l ≠ STATE_MACHINE_SUCCESS
          ∧ r = l_ret l)
  ∨ (∃ l s1 s2, critical_run E event flags s l s1
                ∧ l_ret l = STATE_MACHINE_SUCCESS
                ∧ Chained.invoke_callback E H event event_data l s1 = Ret () s2
                ∧ Chained.invoke_cleanup H l s2 = Ret r s').
Proof.
  unfold Chained.state_machine_event.
  intros ([r0|l] & s1 & Hc & Hk)%bind_ret_inv.
  - apply critical_section_inl in Hc. unfold mret, M_ret in Hk.
    simplify_eq. by left.
  - apply critical_section_inr in Hc. right. unfold is_sm_failure in Hk.
    destruct (N.eqb_spec (l_ret l) STATE_MACHINE_SUCCESS) as [Hs|Hne];
      simpl in Hk.
    + right. apply bind_ret_inv in Hk as ([] & s2 & Hb & Hk). eauto 10.
    + left. unfold mret, M_ret in Hk. simplify_eq. eauto.
Qed.

Lemma chained_event_resolved event event_data flags s l s1 :
  critical_run E event flags s l s1 → l_ret l = STATE_MACHINE_SUCCESS →
  Chained.state_machine_event E H event event_data flags s =
    (Chained.invoke_callback E H event event_data l
     ;; Chained.invoke_cleanup H l) s1.
Proof.
  intros Hc Hr. unfold Chained.state_machine_event.
  rewrite (bind_ret _ _ _ (inr l) s1) by by apply critical_section_inr.
  unfold is_sm_failure. by rewrite Hr.
Qed.

Lemma log_call_ret c s :
  Chained.log_call c s =
  Ret () {| machine := machine s; world := world s; calls := calls s ++ [c] |}.
Proof. done. Qed.

Lemma chained_callback_keeps event event_data l s u s' :
  leave_machine H →
  Chained.invoke_callback E H event event_data l s = Ret u s' →
  machine s' = machine s.
Proof.
  intros (Hen & Hun & _). unfold Chained.invoke_callback.
  intros (t & s1 & Hd & Hk)%bind_ret_inv.
  apply deref_inv in Hd as (-> & _).
  destruct (result t) as [ns h|h]; destruct (negb (h =? NULL));
    try (unfold mret, M_ret in Hk; by simplify_eq).
  - apply bind_ret_inv in Hk as ([] & s2 & [= <-] & Hk). by apply Hen in Hk.
  - apply bind_ret_inv in Hk as ([] & s2 & [= <-] & Hk). by apply Hun in Hk.
Qed.

Lemma chained_cleanup_keeps l s r s' :
  leave_machine H →
  Chained.invoke_cleanup H l s = Ret r s' →
  machine s' = machine s.
Proof.
  intros (_ & _ & Hcl). unfold Chained.invoke_cleanup.
  intros (sm & s1 & [= <- <-] & Hk)%bind_ret_inv.
  destruct (SM_TRANSITION (machine s)) as [tbl|f c];
    [unfold mret, M_ret in Hk; by simplify_eq|].
  destruct (negb (c =? NULL)); [|unfold mret, M_ret in Hk; by simplify_eq].
  destruct (l_transition l) as [p|]; [|done].
  apply bind_ret_inv in Hk as ([] & s2 & [= <-] & Hk). by apply Hcl in Hk.
Qed.

(** The critical section goes through when event and state are in range and
    a successful resolution yields a readable record that leads below
    [max_state]. *)
Lemma critical_section_returns event flags s s0 sr ret tr :
  lock_take E flags s = Ret STATE_MACHINE_SUCCESS s0 →
  resolve E STATE_MACHINE_SUCCESS (SM_MAX_EVENT (machine s))
    (SM_CURRENT_STATE (machine s)) event (SM_DATA (machine s)) s0
    = Ret (ret, tr) sr →
  event < SM_MAX_EVENT (machine s) →
  SM_CURRENT_STATE (machine s) < SM_MAX_STATE (machine s) →
  (ret = STATE_MACHINE_SUCCESS →
   ∃ p t, tr = Some p ∧ load E (world sr) p = Some t
          ∧ ∀ next_state on_enter,
              result t = RESULT_TRANSITION next_state on_enter →
              next_state < SM_MAX_STATE (machine s)) →
  ∃ l s1, critical_section E event flags s = Ret (inr l) s1.
Proof.
  intros Hl Hr He Hc Hv.
  apply lock_take_inv in Hl as Hl'. destruct Hl' as (Hm0 & Hcons & _).
  apply resolve_inv in Hr as Hr'. destruct Hr' as (Hmr & _).
  destruct (decide (ret = STATE_MACHINE_SUCCESS)) as [->|Hne].
  - destruct Hv as (p & t & -> & Hload & Hb); [done|].
    assert (deref E (Some p) sr = Ret t sr) as Hd
      by (unfold deref; by rewrite Hload).
    pose proof (apply_transition_success E (Some p)
                  (SM_CURRENT_STATE (machine s)) (SM_MAX_STATE (machine s))
                  sr t Hd) as Ha.
    destruct (result t) as [ns h|h] eqn:Hres.
    + set (sa := {| machine := set_current_state ns (machine sr);
                    world := world sr; calls := calls sr |}) in *.
      destruct (lock_give_consistent E sa) as (s1 & lg & Hg & _).
      { simpl. by rewrite Hmr, Hm0. }
      exists {| l_ret := STATE_MACHINE_SUCCESS; l_transition := Some p;
                l_current_state := ns;
                l_previous_state := SM_CURRENT_STATE (machine s);
                l_data := SM_DATA (machine s) |}, s1.
      apply critical_section_inr. exists s0, sr, sa.
      split_and!; try done. by eapply Hb.
    + destruct (lock_give_consistent E sr) as (s1 & lg & Hg & _).
      { by rewrite Hmr, Hm0. }
      exists {| l_ret := STATE_MACHINE_SUCCESS; l_transition := Some p;
                l_current_state := SM_CURRENT_STATE (machine s);
                l_previous_state := SM_MAX_STATE (machine s);
                l_data := SM_DATA (machine s) |}, s1.
      apply critical_section_inr. exists s0, sr, sr.
      split_and!; try done. by rewrite Hmr, Hm0.
  - destruct (lock_give_consistent E sr) as (s1 & lg & Hg & _).
    { by rewrite Hmr, Hm0. }
    exists {| l_ret := ret; l_transition := tr;
              l_current_state := SM_CURRENT_STATE (machine s);
              l_previous_state := SM_MAX_STATE (machine s);
              l_data := SM_DATA (machine s) |}, s1.
    apply critical_section_inr. exists s0, sr, sr.
    split_and!; try done.
    + by apply apply_transition_failure.
    + by rewrite Hmr, Hm0.
Qed.

(** ** The one assignment to [current_state] *)

(** C1, amended.  Take a dispatch that acquires the lock ([lock_take] returns
    [STATE_MACHINE_SUCCESS]) and let [(ret, tr)] be the outcome of its
    resolution.
    - When the critical section ends (the lock has been given, no callback has
      run yet), [current_state] is the [next_state] of the resolved record
      exactly when [ret] is [STATE_MACHINE_SUCCESS] and the record is a
      [Transition]; in every other case (a nonzero [ret], or a
      [NoTransition] record) it is what it was before the call.
    - The critical section does end when event and state are in range and a
      successful resolution yields a readable record that leads below
      [max_state].
    - A dispatch that returns has gone through the critical section.  If
      [ret] is not [STATE_MACHINE_SUCCESS] it returns in the state the
      critical section left; otherwise only the callback and the cleanup
      function run after it, and if those leave the machine alone the machine
      at return is the one the critical section left. *)
Theorem dispatch_current_state_mutation
  event event_data flags s s0 sr ret tr :
  lock_take E flags s = Ret STATE_MACHINE_SUCCESS s0 →
  resolve E STATE_MACHINE_SUCCESS (SM_MAX_EVENT (machine s))
    (SM_CURRENT_STATE (machine s)) event (SM_DATA (machine s)) s0
    = Ret (ret, tr) sr →
  (∀ l s1,
      critical_section E event flags s = Ret (inr l) s1 →
      (∃ t next_state on_enter,
          ret = STATE_MACHINE_SUCCESS ∧ deref E tr sr = Ret t sr
          ∧ result t = RESULT_TRANSITION next_state on_enter
          ∧ SM_CURRENT_STATE (machine s1) = next_state)
      ∨ ((ret ≠ STATE_MACHINE_SUCCESS
          ∨ ∃ t h, deref E tr sr = Ret t sr ∧ result t = RESULT_NO_TRANSITION h)
         ∧ SM_CURRENT_STATE (machine s1) = SM_CURRENT_STATE (machine s)))
  ∧ (event < SM_MAX_EVENT (machine s) →
     SM_CURRENT_STATE (machine s) < SM_MAX_STATE (machine s) →
     (ret = STATE_MACHINE_SUCCESS →
      ∃ p t, tr = Some p ∧ load E (world sr) p = Some t
             ∧ ∀ next_state on_enter,
                 result t = RESULT_TRANSITION next_state on_enter →
                 next_state < SM_MAX_STATE (machine s)) →
     ∃ l s1, critical_section E event flags s = Ret (inr l) s1)
  ∧ (∀ r s',
        Chained.state_machine_event E H event event_data flags s = Ret r s' →
        ∃ l s1,
          critical_section E event flags s = Ret (inr l) s1
          ∧ (ret ≠ STATE_MACHINE_SUCCESS → s' = s1)
          ∧ (ret = STATE_MACHINE_SUCCESS →
             (Chained.invoke_callback E H event event_data l
              ;; Chained.invoke_cleanup H l) s1 = Ret r s')
          ∧ (leave_machine H → machine s' = machine s1)).
Proof.
  intros Hl Hr.
  assert (∀ l s1, critical_run E event flags s l s1 → l_ret l = ret) as Hret.
  { intros l s1 (s0' & sr' & sa & Hl' & _ & _ & Hr' & _).
    rewrite Hl in Hl'. injection Hl' as <-. rewrite Hr in Hr'.
    by injection Hr' as -> _ _. }
  split_and!.
  - intros l s1 Hc%critical_section_inr.
    apply critical_run_machine in Hc as Hm.
    destruct Hc as (s0' & sr' & sa & Hl' & _ & _ & Hr' & Ha & _).
    rewrite Hl in Hl'. injection Hl' as <-.
    rewrite Hr in Hr'. injection Hr' as Hret' Htr Hsr.
    rewrite <- Hret', <- Htr, <- Hsr in Ha.
    apply apply_transition_inv in Ha as (_ & _ & Hcase). rewrite Hm. simpl.
    destruct Hcase as [(t & ns & h & ? & ? & ? & ? & _)|(? & ? & _)];
      [left|right]; eauto 10.
  - intros He Hc Hv. by eapply critical_section_returns.
  - intros r s' Hev.
    apply chained_event_ret_inv in Hev
      as [(Hl' & Hne)|[(l & Hc & Hne & ->)|(l & s1 & s2 & Hc & Hs & Hb & Hk)]].
    + rewrite Hl in Hl'. by injection Hl' as <- <-.
    + exists l, s'. rewrite (Hret _ _ Hc) in Hne.
      split_and!; [by apply critical_section_inr|done..].
    + exists l, s1. rewrite (Hret _ _ Hc) in Hs.
      split_and!; [by apply critical_section_inr|done| |].
      * intros _. by rewrite (bind_ret _ _ _ _ _ Hb).
      * intros Hk'. apply (chained_callback_keeps _ _ _ _ _ _ Hk') in Hb.
        apply (chained_cleanup_keeps _ _ _ _ Hk') in Hk. by rewrite Hk, Hb.
Qed.

(** ** Cleanup *)


(** ** A dispatch on a table *)

(** X7.  A dispatch on a table-strategy machine that takes the lock, with
    event and state in range and the record [t] stored at
    [table[current_state][event]]:
    - if [t] is a [Transition] to a state below [max_state], the critical
      section ends with [current_state] set to that state; with a NULL
      [on_enter] the dispatch returns [STATE_MACHINE_SUCCESS] in that state,
      otherwise [on_enter] is called after the lock was given, with the
      event, the new state, the old state, [event_data] and [data], and the
      dispatch returns [STATE_MACHINE_SUCCESS] in the state [on_enter]
      leaves;
    - if [t] is a [NoTransition], the critical section ends with the machine
      unchanged; with a NULL [on_undefined_transition] the dispatch returns
      [STATE_MACHINE_SUCCESS] in that state, otherwise
      [on_undefined_transition] is called after the lock was given, with the
      event, the current state, [event_data] and [data], and the dispatch
      returns [STATE_MACHINE_SUCCESS] in the state it leaves.
    No cleanup function is called as long as the callback leaves the machine
    on a table. *)
Theorem table_dispatch_chained
  event event_data flags s s0 transition_table t :
  SM_TRANSITION (machine s) = table transition_table →
  lock_take E flags s = Ret STATE_MACHINE_SUCCESS s0 →
  event < SM_MAX_EVENT (machine s) →
  SM_CURRENT_STATE (machine s) < SM_MAX_STATE (machine s) →
  (∀ w, load E w (transition_table
                  + (SM_CURRENT_STATE (machine s) * SM_MAX_EVENT (machine s)
                     + event)) = Some t) →
  match result t with
  | RESULT_TRANSITION next_state on_enter =>
      next_state < SM_MAX_STATE (machine s) →
      ∃ s1,
        lock_give E {| machine := set_current_state next_state (machine s);
                       world := world s0; calls := calls s0 |} = Ret () s1
        ∧ machine s1 = set_current_state next_state (machine s)
        ∧ (on_enter = NULL →
           Chained.state_machine_event E H event event_data flags s
           = Ret STATE_MACHINE_SUCCESS s1)
        ∧ (on_enter ≠ NULL →
           ∀ s2,
             on_enter_handler H on_enter event next_state
               (SM_CURRENT_STATE (machine s)) event_data (SM_DATA (machine s))
               {| machine := machine s1; world := world s1;
                  calls := calls s1 ++
                    [call_on_enter on_enter event next_state
                       (SM_CURRENT_STATE (machine s)) event_data
                       (SM_DATA (machine s))] |} = Ret () s2 →
             SM_USING_TRANSITION_TABLE (machine s2) = true →
             Chained.state_machine_event E H event event_data flags s
             = Ret STATE_MACHINE_SUCCESS s2)
  | RESULT_NO_TRANSITION on_undefined_transition =>
      ∃ s1,
        lock_give E s0 = Ret () s1
        ∧ machine s1 = machine s
        ∧ (on_undefined_transition = NULL →
           Chained.state_machine_event E H event event_data flags s
           = Ret STATE_MACHINE_SUCCESS s1)
        ∧ (on_undefined_transition ≠ NULL →
           ∀ s2,
             on_undefined_transition_handler H on_undefined_transition event
               (SM_CURRENT_STATE (machine s)) event_data (SM_DATA (machine s))
               {| machine := machine s1; world := world s1;
                  calls := calls s1 ++
                    [call_on_undefined_transition on_undefined_transition
                       event (SM_CURRENT_STATE (machine s)) event_data
                       (SM_DATA (machine s))] |} = Ret () s2 →
             SM_USING_TRANSITION_TABLE (machine s2) = true →
             Chained.state_machine_event E H event event_data flags s
             = Ret STATE_MACHINE_SUCCESS s2)
  end.
Proof.
  intros Ht Hl He Hc Hload.
  apply lock_take_inv in Hl as Hm. destruct Hm as (Hm & Hcons & _).
  set (p := transition_table
            + (SM_CURRENT_STATE (machine s) * SM_MAX_EVENT (machine s) + event))
    in *.
  assert (resolve E STATE_MACHINE_SUCCESS (SM_MAX_EVENT (machine s))
            (SM_CURRENT_STATE (machine s)) event (SM_DATA (machine s)) s0
          = Ret (STATE_MACHINE_SUCCESS, Some p) s0) as Hr.
  { apply resolve_table. by rewrite Hm. }
  assert (∀ s1, deref E (Some p) s1 = Ret t s1) as Hd.
  { intros s1. unfold deref. by rewrite Hload. }
  pose proof (apply_transition_success E (Some p)
                (SM_CURRENT_STATE (machine s)) (SM_MAX_STATE (machine s))
                s0 t (Hd s0)) as Ha.
  assert (∀ s2 : St W, SM_USING_TRANSITION_TABLE (machine s2) = true →
            ∀ l, Chained.invoke_cleanup H l s2 = Ret (l_ret l) s2) as Hclean.
  { intros s2 Hu l. unfold Chained.invoke_cleanup, get_sm, mbind, M_bind.
    unfold SM_USING_TRANSITION_TABLE in Hu.
    by destruct (SM_TRANSITION (machine s2)). }
  destruct (result t) as [ns h|h] eqn:Hres.
  - intros Hns. rewrite Hm in Ha.
    set (sa := {| machine := set_current_state ns (machine s);
                  world := world s0; calls := calls s0 |}) in *.
    destruct (lock_give_consistent E sa Hcons) as (s1 & lg & Hg & Hmg & _).
    exists s1. split_and!; [done..| |].
    all: set (l := {| l_ret := STATE_MACHINE_SUCCESS; l_transition := Some p;
                      l_current_state := ns;
                      l_previous_state := SM_CURRENT_STATE (machine s);
                      l_data := SM_DATA (machine s) |}).
    all: assert (critical_run E event flags s l s1) as Hrun
           by by exists s0, s0, sa.
    + intros ->.
      rewrite (chained_event_resolved event event_data flags s l s1 Hrun eq_refl).
      unfold Chained.invoke_callback, deref, mbind, M_bind. simpl.
      rewrite Hload, Hres. simpl. apply (Hclean s1); [|done..].
      unfold SM_USING_TRANSITION_TABLE. by rewrite Hmg; simpl; rewrite Ht.
    + intros Hh s2 Hon Hu.
      rewrite (chained_event_resolved event event_data flags s l s1 Hrun eq_refl).
      unfold Chained.invoke_callback, deref, mbind, M_bind. simpl.
      rewrite Hload, Hres. apply N.eqb_neq in Hh as ->. simpl.
      rewrite Hon. by apply (Hclean s2 Hu l).
  - assert (locking_definition_consistent (SM_LOCK (machine s0)) = true)
      as Hcons0 by by rewrite Hm.
    destruct (lock_give_consistent E s0 Hcons0) as (s1 & lg & Hg & Hmg & _).
    exists s1. split_and!; [done|by rewrite Hmg| |].
    all: set (l := {| l_ret := STATE_MACHINE_SUCCESS; l_transition := Some p;
                      l_current_state := SM_CURRENT_STATE (machine s);
                      l_previous_state := SM_MAX_STATE (machine s);
                      l_data := SM_DATA (machine s) |}).
    all: assert (critical_run E event flags s l s1) as Hrun
           by (exists s0, s0, s0; split_and!; try done; by rewrite ?Hm).
    + intros ->.
      rewrite (chained_event_resolved event event_data flags s l s1 Hrun eq_refl).
      unfold Chained.invoke_callback, deref, mbind, M_bind. simpl.
      rewrite Hload, Hres. simpl. apply (Hclean s1); [|done..].
      unfold SM_USING_TRANSITION_TABLE. by rewrite Hmg, Hm, Ht.
    + intros Hh s2 Hon Hu.
      rewrite (chained_event_resolved event event_data flags s l s1 Hrun eq_refl).
      unfold Chained.invoke_callback, deref, mbind, M_bind. simpl.
      rewrite Hload, Hres. apply N.eqb_neq in Hh as ->. simpl.
      rewrite Hon. by apply (Hclean s2 Hu l).
Qed.

(** ** What a callback is told *)

(** X9.  The callback step of a dispatch whose critical section went through
    either calls nothing, or runs one callback, which is told the event of
    the dispatch, the [current_state] the machine had when the critical
    section ended, the [event_data] of the caller and the machine's [data];
    [on_enter] is told as previous state the state before the dispatch, or
    the value [max_state] which [previous_state] holds as long as no
    transition was made. *)
Theorem callback_arguments_at_release
  event event_data flags s l s1 u s2 :
  critical_run E event flags s l s1 →
  Chained.invoke_callback E H event event_data l s1 = Ret u s2 →
  s2 = s1
  ∨ ∃ c,
      is_call_callback c = true
      ∧ callback_told event event_data (machine s) (machine s1) c
      ∧ Chained.handle H c
          {| machine := machine s1; world := world s1;
             calls := calls s1 ++ [c] |} = Ret () s2.
Proof.
  intros Hrun Hb. destruct u.
  apply critical_run_machine in Hrun as Hm.
  assert (l_previous_state l = SM_CURRENT_STATE (machine s)
          ∨ l_previous_state l = SM_MAX_STATE (machine s)) as Hprev.
  { destruct Hrun as (? & sr & sa & _ & _ & _ & _ & Ha & _).
    apply apply_transition_inv in Ha as (_ & _ & Hcase).
    destruct Hcase as [(? & ? & ? & _ & _ & _ & _ & ? & _)|(_ & _ & ? & _)];
      auto. }
  assert (l_data l = SM_DATA (machine s)) as Hdata
    by by destruct Hrun as (? & ? & ? & _ & _ & _ & _ & _ & _ & _ & _ & ?).
  assert (l_current_state l = SM_CURRENT_STATE (machine s1)) as Hcur
    by by rewrite Hm.
  unfold Chained.invoke_callback in Hb.
  apply bind_ret_inv in Hb as (t & s1' & Hd & Hk).
  apply deref_inv in Hd as (-> & _).
  destruct (result t) as [ns h|h]; destruct (negb (h =? NULL));
    try (unfold mret, M_ret in Hk; left; by simplify_eq).
  - right. apply bind_ret_inv in Hk as ([] & sl & [= <-] & Hk).
    eexists (call_on_enter h event _ _ event_data _).
    split_and!; [done| |exact Hk]. simpl. by split_and!.
  - right. apply bind_ret_inv in Hk as ([] & sl & [= <-] & Hk).
    eexists (call_on_undefined_transition h event _ event_data _).
    split_and!; [done| |exact Hk]. simpl. by split_and!.
Qed.

End ChainedProperties.

(** ** The name tables of the example *)

(** X14.  [state_to_str] and [event_to_str] never read past their tables:
    every value has a name, and the name is ["unknown"] exactly for the
    values that are not below [MAX_STATE], respectively [MAX_EVENT]. *)
Theorem names_in_bounds (s e : uint32) :
  (∃ n, state_to_str s = Some n ∧ (n = "unknown"%string ↔ MAX_STATE ≤ s))
  ∧ (∃ n, event_to_str e = Some n ∧ (n = "unknown"%string ↔ MAX_EVENT ≤ e)).
Proof.
  unfold state_to_str, event_to_str, x_to_str, MAX_STATE, MAX_EVENT. split.
  - destruct (N.ltb_spec s 3) as [Hs|Hs].
    + assert (s = 0 ∨ s = 1 ∨ s = 2) as Hcases by lia.
      destruct Hcases as [->|[->| ->]];
        (eexists; split; [reflexivity|]); (split; [done|lia]).
    + eexists; split; [reflexivity|]. done.
  - destruct (N.ltb_spec e 2) as [He|He].
    + assert (e = 0 ∨ e = 1) as Hcases by lia.
      destruct Hcases as [->| ->];
        (eexists; split; [reflexivity|]); (split; [done|lia]).
    + eexists; split; [reflexivity|]. done.
Qed.

(** ** Instances of the further properties *)

(** Storage that holds [take_only], initialised without locking. *)
Lemma init_aborts_on_partial_lock_in_storage_witness :
  (table_address ≠ NULL →
   state_machine_init_table MAX_STATE MAX_EVENT STATE_0
     STATE_MACHINE_NO_LOCKING table_address NULL
     (start (machine_of take_only (table table_address) STATE_0) idle)
   = Fault (assertion_failed 88))
  ∧ (lookup_function ≠ NULL →
     state_machine_init_function MAX_STATE MAX_EVENT STATE_0
       STATE_MACHINE_NO_LOCKING lookup_function cleanup_done NULL
       (start (machine_of take_only (table table_address) STATE_0) idle)
     = Fault (assertion_failed 88)).
Proof.
  apply (init_aborts_on_partial_lock_in_storage MAX_STATE MAX_EVENT STATE_0
           STATE_MACHINE_NO_LOCKING table_address lookup_function cleanup_done
           NULL
           (start (machine_of take_only (table table_address) STATE_0) idle)).
  - split; [by left|by right; left].
  - by vm_compute.
  - by vm_compute.
  - by vm_compute.
Defined.

(** The event [5] sent to the table machine. *)
Lemma dispatch_range_assertions_witness :
  (¬ 5 < MAX_EVENT →
   state_machine_event embedder 5 NULL 0 (start (table_machine STATE_0) idle)
   = Fault (assertion_failed 231))
  ∧ (5 < MAX_EVENT →
     ¬ STATE_0 < MAX_STATE →
     state_machine_event embedder 5 NULL 0 (start (table_machine STATE_0) idle)
     = Fault (assertion_failed 232)).
Proof.
  apply (dispatch_range_assertions embedder 5 NULL 0
           (start (table_machine STATE_0) idle)
           (start (table_machine STATE_0) idle)).
  reflexivity.
Defined.

(** [EVENT_INC] in [STATE_1] when only two states are declared. *)
Lemma dispatch_next_state_out_of_range_witness :
  state_machine_event embedder EVENT_INC NULL 0 (start short_machine idle)
  = Fault (assertion_failed 274).
Proof.
  apply (dispatch_next_state_out_of_range embedder EVENT_INC NULL 0
           (start short_machine idle) (start short_machine idle)
           (start short_machine idle) (table_address + 2)
           (STATE_MACHINE_TRANSITION STATE_1 EVENT_INC STATE_2 on_enter)
           STATE_2 on_enter).
  - reflexivity.
  - by vm_compute.
  - by vm_compute.
  - reflexivity.
  - reflexivity.
  - reflexivity.
  - by vm_compute.
Defined.

(** [lookup_function] in state [3]: it returns success and a pointer past
    the table. *)
Lemma dispatch_success_without_record_witness :
  state_machine_event embedder EVENT_INC NULL 0 (start wide_machine idle)
  = Fault invalid_read.
Proof.
  apply (dispatch_success_without_record embedder EVENT_INC NULL 0
           (start wide_machine idle) (start wide_machine idle)
           lookup_function NULL (Some (table_address + 6)) idle).
  - reflexivity.
  - reflexivity.
  - by vm_compute.
  - by vm_compute.
  - reflexivity.
  - right. by exists (table_address + 6).
Defined.

(** [EVENT_DEC] in [STATE_1] with [lookup_function] and [cleanup_failing],
    under the mutex. *)
Lemma dispatch_call_order_witness :
  ∃ cb cl,
    calls_since
      (start (locked_function_machine lookup_function cleanup_failing STATE_1)
         idle)
      (dec_cleaned lookup_function cleanup_failing)
      (acquire_calls 0
         (locked_function_machine lookup_function cleanup_failing STATE_1)
       ++ resolve_calls
            (locked_function_machine lookup_function cleanup_failing STATE_1)
            EVENT_DEC
       ++ give_calls
            (locked_function_machine lookup_function cleanup_failing STATE_1)
       ++ cb ++ cl)
    ∧ forallb is_call_callback cb = true ∧ (length cb ≤ 1)%nat
    ∧ forallb is_call_cleanup cl = true ∧ (length cl ≤ 1)%nat.
Proof.
  apply (dispatch_call_order embedder EVENT_DEC NULL 0
           (start (locked_function_machine lookup_function cleanup_failing
                     STATE_1) idle)
           (dec_taken (locked_function_machine lookup_function cleanup_failing
                         STATE_1))
           9 (dec_cleaned lookup_function cleanup_failing)).
  - reflexivity.
  - reflexivity.
Defined.

(** Two reads of the table machine in [STATE_1]. *)
Lemma current_state_idempotent_witness :
  STATE_1 = STATE_1 ∧ STATE_1 = STATE_1
  ∧ machine (start (table_machine STATE_1) idle) = table_machine STATE_1.
Proof.
  apply (current_state_idempotent embedder 98 99 0 STATE_MACHINE_NONBLOCK
           (start (table_machine STATE_1) idle)
           (start (table_machine STATE_1) idle)
           (start (table_machine STATE_1) idle) STATE_1 STATE_1).
  - reflexivity.
  - reflexivity.
Defined.

(** A nonblocking [EVENT_DEC] on the table machine while the mutex is held
    elsewhere. *)
Lemma table_dispatch_status_witness :
  STATE_MACHINE_WOULD_BLOCK = STATE_MACHINE_SUCCESS
  ∨ (STATE_MACHINE_WOULD_BLOCK = STATE_MACHINE_WOULD_BLOCK
     ∧ nonblocking_take_fails embedder STATE_MACHINE_NONBLOCK
         (start (locked_table_machine STATE_1) contended) = true).
Proof.
  apply (table_dispatch_status embedder EVENT_DEC NULL STATE_MACHINE_NONBLOCK
           (start (locked_table_machine STATE_1) contended) table_address
           STATE_MACHINE_WOULD_BLOCK
           {| machine := locked_table_machine STATE_1; world := contended;
              calls := [call_try_take mutex_try_take] |}).
  - reflexivity.
  - reflexivity.
Defined.

(** The dispatch of [EVENT_DEC] under the mutex, then a read of the state. *)
Lemma api_preserves_configuration_witness :
  same_configuration
    (locked_function_machine lookup_function cleanup_failing STATE_1)
    (locked_function_machine lookup_function cleanup_failing STATE_0).
Proof.
  apply (api_preserves_configuration embedder
           (start (locked_function_machine lookup_function cleanup_failing
                     STATE_1) idle)
           {| machine :=
                locked_function_machine lookup_function cleanup_failing STATE_0;
              world := world (dec_cleaned lookup_function cleanup_failing);
              calls := calls (dec_cleaned lookup_function cleanup_failing)
                       ++ [call_take mutex_take; call_give mutex_give] |}).
  eapply rtc_l.
  - apply (step_event embedder _ EVENT_DEC NULL 0 9
             (dec_cleaned lookup_function cleanup_failing)).
    + by vm_compute.
    + reflexivity.
  - apply rtc_once.
    apply (step_current_state embedder _ 99 0
             (STATE_MACHINE_SUCCESS, STATE_0)).
    reflexivity.
Defined.

(** ** Callbacks that send events *)

(** C1 as stated fails at the return of a dispatch whose callback sends an
    event: [EVENT_INC] in [STATE_2] resolves to a [NoTransition],
    [on_undefined_transition] sends [EVENT_DEC], and the dispatch returns
    with the machine in [STATE_1]. *)
Lemma chained_dispatch_moves_state :
  ¬ (∀ (W : Type) (E : Embedder W) (H : Handlers W)
       (event : uint32) (event_data : pointer) (flags : uint32)
       (s s0 sr : St W) (ret : uint32) (tr : option pointer)
       (r : uint32) (s' : St W),
       lock_take E flags s = Ret STATE_MACHINE_SUCCESS s0 →
       resolve E STATE_MACHINE_SUCCESS (SM_MAX_EVENT (machine s))
         (SM_CURRENT_STATE (machine s)) event (SM_DATA (machine s)) s0
         = Ret (ret, tr) sr →
       Chained.state_machine_event E H event event_data flags s = Ret r s' →
       (∃ t next_state on_enter,
           ret = STATE_MACHINE_SUCCESS ∧ deref E tr sr = Ret t sr
           ∧ result t = RESULT_TRANSITION next_state on_enter
           ∧ SM_CURRENT_STATE (machine s') = next_state)
       ∨ ((ret ≠ STATE_MACHINE_SUCCESS
           ∨ ∃ t h, deref E tr sr = Ret t sr
                    ∧ result t = RESULT_NO_TRANSITION h)
          ∧ SM_CURRENT_STATE (machine s') = SM_CURRENT_STATE (machine s))).
Proof.
  intros Hc.
  destruct (Hc env embedder chaining EVENT_INC NULL 0
              (start (table_machine STATE_2) idle)
              (start (table_machine STATE_2) idle)
              (start (table_machine STATE_2) idle)
              STATE_MACHINE_SUCCESS (Some (table_address + 4))
              STATE_MACHINE_SUCCESS inc_undefined
              eq_refl eq_refl eq_refl)
    as [(t & ns & h & _ & Hd & Hres & _)|(_ & Hcur)].
  - injection Hd as <-. discriminate Hres.
  - discriminate Hcur.
Qed.

(** [EVENT_INC] in [STATE_2] on the table machine, with the handlers
    [chaining]: the entry [table_address + 4] is resolved. *)
Lemma dispatch_current_state_mutation_witness :
  (∀ l s1,
      critical_section embedder EVENT_INC 0
        (start (table_machine STATE_2) idle) = Ret (inr l) s1 →
      (∃ t next_state on_enter,
          STATE_MACHINE_SUCCESS = STATE_MACHINE_SUCCESS
          ∧ deref embedder (Some (table_address + 4))
              (start (table_machine STATE_2) idle)
            = Ret t (start (table_machine STATE_2) idle)
          ∧ result t = RESULT_TRANSITION next_state on_enter
          ∧ SM_CURRENT_STATE (machine s1) = next_state)
      ∨ ((STATE_MACHINE_SUCCESS ≠ STATE_MACHINE_SUCCESS
          ∨ ∃ t h,
              deref embedder (Some (table_address + 4))
                (start (table_machine STATE_2) idle)
              = Ret t (start (table_machine STATE_2) idle)
              ∧ result t = RESULT_NO_TRANSITION h)
         ∧ SM_CURRENT_STATE (machine s1) = STATE_2))
  ∧ (EVENT_INC < MAX_EVENT →
     STATE_2 < MAX_STATE →
     (STATE_MACHINE_SUCCESS = STATE_MACHINE_SUCCESS →
      ∃ p t, Some (table_address + 4) = Some p
             ∧ load embedder idle p = Some t
             ∧ ∀ next_state on_enter,
                 result t = RESULT_TRANSITION next_state on_enter →
                 next_state < MAX_STATE) →
     ∃ l s1,
       critical_section embedder EVENT_INC 0
         (start (table_machine STATE_2) idle) = Ret (inr l) s1)
  ∧ (∀ r s',
        Chained.state_machine_event embedder chaining EVENT_INC NULL 0
          (start (table_machine STATE_2) idle) = Ret r s' →
        ∃ l s1,
          critical_section embedder EVENT_INC 0
            (start (table_machine STATE_2) idle) = Ret (inr l) s1
          ∧ (STATE_MACHINE_SUCCESS ≠ STATE_MACHINE_SUCCESS → s' = s1)
          ∧ (STATE_MACHINE_SUCCESS = STATE_MACHINE_SUCCESS →
             (Chained.invoke_callback embedder chaining EVENT_INC NULL l
              ;; Chained.invoke_cleanup chaining l) s1 = Ret r s')
          ∧ (leave_machine chaining → machine s' = machine s1)).
Proof.
  apply (dispatch_current_state_mutation embedder chaining EVENT_INC NULL 0
           (start (table_machine STATE_2) idle)
           (start (table_machine STATE_2) idle)
           (start (table_machine STATE_2) idle)
           STATE_MACHINE_SUCCESS (Some (table_address + 4))).
  - reflexivity.
  - reflexivity.
Defined.



(** [EVENT_INC] in [STATE_0] on the table machine of the example, with the
    handlers [chaining]. *)
Lemma table_dispatch_chained_witness :
  ∃ s1,
    lock_give embedder
      {| machine := set_current_state STATE_1 (table_machine STATE_0);
         world := idle; calls := [] |} = Ret () s1
    ∧ machine s1 = set_current_state STATE_1 (table_machine STATE_0)
    ∧ (on_enter = NULL →
       Chained.state_machine_event embedder chaining EVENT_INC NULL 0
         (start (table_machine STATE_0) idle)
       = Ret STATE_MACHINE_SUCCESS s1)
    ∧ (on_enter ≠ NULL →
       ∀ s2,
         on_enter_handler chaining on_enter EVENT_INC STATE_1 STATE_0 NULL NULL
           {| machine := machine s1; world := world s1;
              calls := calls s1 ++
                [call_on_enter on_enter EVENT_INC STATE_1 STATE_0 NULL NULL]
           |} = Ret () s2 →
         SM_USING_TRANSITION_TABLE (machine s2) = true →
         Chained.state_machine_event embedder chaining EVENT_INC NULL 0
           (start (table_machine STATE_0) idle)
         = Ret STATE_MACHINE_SUCCESS s2).
Proof.
  refine (table_dispatch_chained embedder chaining EVENT_INC NULL 0
            (start (table_machine STATE_0) idle)
            (start (table_machine STATE_0) idle) table_address
            (STATE_MACHINE_TRANSITION STATE_0 EVENT_INC STATE_1 on_enter)
            _ _ _ _ _ _).
  - reflexivity.
  - reflexivity.
  - by vm_compute.
  - by vm_compute.
  - intros w. reflexivity.
  - by vm_compute.
Defined.

(** The callback step of [EVENT_INC] in [STATE_0] with [lookup_function] and
    the handlers [chaining]: [on_enter] is told [STATE_1], the state the
    critical section left, and leaves the machine in [STATE_2]. *)
Lemma callback_arguments_at_release_witness :
  inc_chained = inc_given
  ∨ ∃ c,
      is_call_callback c = true
      ∧ callback_told EVENT_INC NULL
          (function_machine lookup_function cleanup_failing STATE_0)
          (function_machine lookup_function cleanup_failing STATE_1) c
      ∧ Chained.handle chaining c
          {| machine := machine inc_given; world := world inc_given;
             calls := calls inc_given ++ [c] |} = Ret () inc_chained.
Proof.
  apply (callback_arguments_at_release embedder chaining EVENT_INC NULL 0
           (start (function_machine lookup_function cleanup_failing STATE_0)
              idle)
           inc_locals inc_given () inc_chained).
  - apply critical_section_inr. reflexivity.
  - reflexivity.
Defined.
